(** * A shallow embedding of the S3 service facade (package [application])

    The Go package wraps an [s3.Client] of the AWS SDK in a struct
    [s3Service] and exposes eleven operations that forward one request
    each, log a failure and hand the SDK's error back to the caller.

    The SDK client, the operating system and the remote store are not part
    of the package.  They are taken here as an interface [Env] over an
    abstract world [W]; every facade function is written once against that
    interface, in a state monad that threads the world, the facade struct
    and the log.  A concrete in-memory store ([MemS3]) instantiates the
    interface so that the functions can be run. *)

From Stdlib Require Import ZArith Ascii String List Sorting.Permutation.
From stdpp Require Import base numbers list strings gmap sorting.

Local Open Scope string_scope.
Local Open Scope list_scope.
Local Open Scope Z_scope.

(** ** Go values *)

(** [[]byte] *)
Abbreviation bytes := (list Byte.byte).

(** ** Errors

    A Go [error] is a chain: [errors.As] walks it through [Unwrap] and
    stops at the first value that is assignable to the target.  The target
    in this package is always [smithy.APIError]. *)

Inductive APIError : Type :=
  | types_NotFound (Message : string)
  | types_NoSuchBucket (Message : string)
  | types_NoSuchKey (Message : string)
  | types_BucketAlreadyExists (Message : string)
  | types_BucketAlreadyOwnedByYou (Message : string)
  | smithy_GenericAPIError (Code Message : string).

Inductive error : Type :=
  | err_API (apiError : APIError)             (* implements smithy.APIError *)
  | err_Wrap (context : string) (err : error) (* has Unwrap, e.g. smithy.OperationError *)
  | err_Other (msg : string).                 (* neither: transport and os errors *)

(** [errors.As(err, &apiError)] with [var apiError smithy.APIError]. *)
Fixpoint errors_As_APIError (err : error) : option APIError :=
  match err with
  | err_API apiError => Some apiError
  | err_Wrap _ inner => errors_As_APIError inner
  | err_Other _ => None
  end.

Definition APIError_ErrorCode (a : APIError) : string :=
  match a with
  | types_NotFound _ => "NotFound"
  | types_NoSuchBucket _ => "NoSuchBucket"
  | types_NoSuchKey _ => "NoSuchKey"
  | types_BucketAlreadyExists _ => "BucketAlreadyExists"
  | types_BucketAlreadyOwnedByYou _ => "BucketAlreadyOwnedByYou"
  | smithy_GenericAPIError Code _ => Code
  end.

(** The [Error()] method, used by the [%v] verb. *)
Fixpoint Error (err : error) : string :=
  match err with
  | err_API a => "api error " +:+ APIError_ErrorCode a
  | err_Wrap context inner => context +:+ ": " +:+ Error inner
  | err_Other msg => msg
  end.

(** The case [*types.NotFound] of the type switch in [BucketExists]. *)
Definition is_types_NotFound (a : APIError) : bool :=
  match a with
  | types_NotFound _ => true
  | _ => false
  end.

(** A probe failure is 404-equivalent when its chain carries a
    [*types.NotFound]. *)
Definition IsNotFound (err : error) : Prop :=
  exists Message, errors_As_APIError err = Some (types_NotFound Message).

(** ** SDK types used by the package *)

Definition ETag := Z.

Record Bucket : Type := { Bucket_Name : string }.

Record Object : Type :=
  { Object_Key : string; Object_Size : Z; Object_ETag : ETag }.

(** [GetObjectOutput.Body] is a stream; [io.ReadAll] on it gives the bytes
    that arrived and the error that ended the stream, if any. *)
Record ReadCloser : Type :=
  { stream_data : bytes; stream_err : option error }.

Definition io_ReadAll (r : ReadCloser) : bytes * option error :=
  (stream_data r, stream_err r).

Record GetObjectOutput : Type :=
  { Body : ReadCloser; ObjectLength : Z }.

Record ListObjectsV2Output : Type :=
  { Contents : list Object;
    IsTruncated : bool;
    NextContinuationToken : option string }.

Record CompletedPart : Type :=
  { PartNumber : Z; Part_ETag : ETag }.

(** The requests the facade and the transfer manager send. *)
Inductive Input : Type :=
  | ListBucketsInput
  | HeadBucketInput (Bucket : string)
  | CreateBucketInput (Bucket LocationConstraint : string)
  | PutObjectInput (Bucket Key : string) (Body : bytes)
  | GetObjectInput (Bucket Key : string) (Range : option (Z * Z))
  | CopyObjectInput (Bucket CopySource Key : string)
  | ListObjectsV2Input (Bucket : string) (ContinuationToken : option string)
  | DeleteObjectsInput (Bucket : string) (Objects : list string)
  | DeleteBucketInput (Bucket : string)
  | CreateMultipartUploadInput (Bucket Key : string)
  | UploadPartInput (Bucket Key : string) (UploadId : nat) (PartNumber : Z) (Body : bytes)
  | CompleteMultipartUploadInput (Bucket Key : string) (UploadId : nat)
      (Parts : list CompletedPart)
  | AbortMultipartUploadInput (Bucket Key : string) (UploadId : nat).

(** What each request answers when it does not fail. *)
Definition Output (i : Input) : Type :=
  match i with
  | ListBucketsInput => list Bucket
  | GetObjectInput _ _ _ => GetObjectOutput
  | ListObjectsV2Input _ _ => ListObjectsV2Output
  | CreateMultipartUploadInput _ _ => nat
  | UploadPartInput _ _ _ _ _ => ETag
  | _ => unit
  end.

(** [s3.Options]: the region and the static credentials given in [main]. *)
Record s3_Options : Type :=
  { Region : string; AccessKeyId : string; SecretAccessKey : string }.

(** [type s3Service struct { s3Client *s3.Client }]; the pointer is nil
    until [NewClient] is called. *)
Record s3Service : Type := { s3Client : option s3_Options }.

(** ** The environment of the package *)

Record Env (W : Type) : Type :=
  { (* a method of the s3 client: (output, err) *)
    s3_invoke : forall i : Input, s3_Options -> W -> (Output i + error) * W;
    (* os.Open followed by reading the file as a request body *)
    os_Open : string -> W -> (bytes + error) * W;
    (* os.Create: the handle is the path of the truncated file *)
    os_Create : string -> W -> (string + error) * W;
    (* Write on the file handle: (n, err) *)
    file_Write : string -> bytes -> W -> (Z * option error) * W;
    (* the order in which concurrent requests of one transfer complete *)
    completion_choices : W -> list nat;
    (* the part sizes of the transfer manager before any option is applied:
       manager.DefaultUploadPartSize and manager.DefaultDownloadPartSize *)
    manager_DefaultUploadPartSize : Z;
    manager_DefaultDownloadPartSize : Z }.

Arguments s3_invoke {W} _ _ _ _.
Arguments os_Open {W} _ _ _.
Arguments os_Create {W} _ _ _.
Arguments file_Write {W} _ _ _ _.
Arguments completion_choices {W} _ _.
Arguments manager_DefaultUploadPartSize {W} _.
Arguments manager_DefaultDownloadPartSize {W} _.

(** ** The state monad of the facade

    [None] is a nil-pointer panic: a method called before [NewClient]. *)

Record State (W : Type) : Type :=
  { svc : s3Service; world : W; logged : list string }.

Arguments svc {W} _.
Arguments world {W} _.
Arguments logged {W} _.
Arguments Build_State {W} _ _ _.

Definition M (W A : Type) : Type := State W -> option (A * State W).

Definition M_ret {W A} (a : A) : M W A := fun st => Some (a, st).

Definition M_bind {W A B} (m : M W A) (k : A -> M W B) : M W B :=
  fun st =>
    match m st with
    | Some (a, st') => k a st'
    | None => None
    end.

Declare Scope go_scope.
Delimit Scope go_scope with go.
Notation "x <- m ;; k" := (M_bind m (fun x => k))
  (at level 100, m at next level, right associativity) : go_scope.
Notation "m ;;; k" := (M_bind m (fun _ => k))
  (at level 100, right associativity) : go_scope.

(** ** The transfer manager (package [manager] of the SDK)

    The facade hands large objects to [manager.Uploader] and
    [manager.Downloader].  Their code is not in the repository; what they
    do is taken from section 4.1 of the specification. *)

(** [int64] arithmetic: a product wraps around at 64 bits. *)
Definition int64_wrap (x : Z) : Z := (x + 2 ^ 63) mod 2 ^ 64 - 2 ^ 63.

Definition int64_mul (a b : Z) : Z := int64_wrap (a * b).

(** Modelled from the spec: the part size of a transfer, "partSizeBytes". *)
Record Uploader : Type := { PartSize : Z }.

Record Downloader : Type := { Downloader_PartSize : Z }.

(** Modelled from the spec: "splits source into sequential parts of
    partSizeBytes".  The source is read front to back; [cur] holds the
    bytes of the part being filled, last byte first, and [room] how many
    bytes it still takes. *)
Fixpoint fill_parts (partSize room : Z) (cur source : bytes) : list bytes :=
  match source with
  | [] => match cur with [] => [] | _ => [rev cur] end
  | b :: rest =>
      if room <=? 1 then rev (b :: cur) :: fill_parts partSize partSize [] rest
      else fill_parts partSize (room - 1) (b :: cur) rest
  end.

Definition split_parts (partSize : Z) (source : bytes) : list bytes :=
  fill_parts partSize partSize [] source.

(** Part numbers count from [n] upwards. *)
Fixpoint number_parts (n : Z) (parts : list bytes) : list (Z * bytes) :=
  match parts with
  | [] => []
  | p :: rest => (n, p) :: number_parts (n + 1) rest
  end.

(** Modelled from the spec: parts are transferred "concurrently" and may
    complete in any order.  The order is read off a list of choices: each
    choice picks, modulo the number of requests still pending, the one
    that completes next. *)
Fixpoint complete_next {A} (n : nat) (choices : list nat) (pending : list A) : list A :=
  match n with
  | O => []
  | S n' =>
      let i := (hd 0 choices mod length pending)%nat in
      match pending !! i with
      | Some x => x :: complete_next n' (tl choices) (delete i pending)
      | None => []
      end
  end.

Definition completion_order {A} (choices : list nat) (requests : list A) : list A :=
  complete_next (length requests) choices requests.

(** Modelled from the spec: the manifest is "ordered by ascending part
    number regardless of upload completion order". *)
Definition part_le (a b : CompletedPart) : Prop := PartNumber a <= PartNumber b.

#[global] Instance part_le_dec : RelDecision part_le.
Proof. intros a b. unfold part_le. apply _. Defined.

#[global] Instance part_le_total : Total part_le.
Proof. intros a b. unfold part_le. lia. Qed.

#[global] Instance part_le_trans : Transitive part_le.
Proof. intros a b c. unfold part_le. lia. Qed.

Definition manifest (completed : list CompletedPart) : list CompletedPart :=
  merge_sort part_le completed.

(** Modelled from the spec: [manager.WriteAtBuffer], "parts MUST be written
    to their correct offset regardless of completion order".  The buffer
    grows, zero filled, up to the end of the write. *)
Definition WriteAt (buf p : bytes) (pos : Z) : bytes :=
  let pos := Z.to_nat pos in
  let expanded := (buf ++ replicate (pos + length p - length buf)%nat Byte.x00)%list in
  (take pos expanded ++ p ++ drop (pos + length p)%nat expanded)%list.

Definition manager_NewWriteAtBuffer (buf : bytes) : bytes := buf.

(** Modelled from the spec: "byte ranges sized partSizeBytes", first and
    last offset included, from [start] up to the object's length. *)
Fixpoint byte_ranges (fuel : nat) (partSize start total : Z) : list (Z * Z) :=
  match fuel with
  | O => []
  | S fuel' =>
      if total <=? start then []
      else (start, Z.min (start + partSize) total - 1)
             :: byte_ranges fuel' partSize (start + partSize) total
  end.

Section Facade.

Context {W : Type} (env : Env W).

Local Open Scope go_scope.

(** [log.Printf]: one line appended to the log. *)
Definition log_Printf (line : string) : M W unit :=
  fun st => Some (tt, Build_State (svc st) (world st) (logged st ++ [line])%list).

(** Dereferencing [service.s3Client]. *)
Definition client : M W s3_Options :=
  fun st =>
    match s3Client (svc st) with
    | Some options => Some (options, st)
    | None => None
    end.

(** A call that only the world sees. *)
Definition in_world {A} (f : W -> A * W) : M W A :=
  fun st =>
    let '(a, w) := f (world st) in
    Some (a, Build_State (svc st) w (logged st)).

(** [service.s3Client.Op(context.TODO(), &input)]. *)
Definition invoke (i : Input) : M W (Output i + error) :=
  options <- client ;;
  in_world (s3_invoke env i options).

(** [func (service *s3Service) NewClient(options s3.Options)] *)
Definition NewClient (options : s3_Options) : M W unit :=
  fun st => Some (tt, Build_State {| s3Client := Some options |} (world st) (logged st)).

(** [func (service *s3Service) ListBuckets() ([]types.Bucket, error)] *)
Definition ListBuckets : M W (list Bucket * option error) :=
  r <- invoke ListBucketsInput ;;
  match r with
  | inr err =>
      log_Printf ("Couldn't list buckets for your account. Here's why: " +:+ Error err) ;;;
      M_ret ([], Some err)
  | inl result => M_ret (result, None)
  end.

(** [func (service *s3Service) BucketExists(bucketName string) (bool, error)] *)
Definition BucketExists (bucketName : string) : M W (bool * option error) :=
  r <- invoke (HeadBucketInput bucketName) ;;
  let exists_ := true in
  match r with
  | inr err =>
      match errors_As_APIError err with
      | Some apiError =>
          if is_types_NotFound apiError then
            log_Printf ("Bucket " +:+ bucketName +:+ " is available.") ;;;
            M_ret (false, None)
          else
            log_Printf ("Either you don't have access to bucket " +:+ bucketName
                        +:+ " or another error occurred. Here's what happened: "
                        +:+ Error err) ;;;
            M_ret (exists_, Some err)
      | None => M_ret (exists_, Some err)
      end
  | inl _ =>
      log_Printf ("Bucket " +:+ bucketName +:+ " exists and you already own it.") ;;;
      M_ret (exists_, None)
  end.

(** [func (service *s3Service) CreateBucket(name string, region string) error] *)
Definition CreateBucket (name region : string) : M W (option error) :=
  r <- invoke (CreateBucketInput name region) ;;
  match r with
  | inr err =>
      log_Printf ("Couldn't create bucket " +:+ name +:+ " in Region " +:+ region
                  +:+ ". Here's why: " +:+ Error err) ;;;
      M_ret (Some err)
  | inl _ => M_ret None
  end.

(** [func (service *s3Service) UploadFile(bucketName, objectKey, fileName string) error];
    the deferred [file.Close()] returns nothing to the caller. *)
Definition UploadFile (bucketName objectKey fileName : string) : M W (option error) :=
  f <- in_world (os_Open env fileName) ;;
  match f with
  | inr err =>
      log_Printf ("Couldn't open file " +:+ fileName +:+ " to upload. Here's why: "
                  +:+ Error err) ;;;
      M_ret (Some err)
  | inl file =>
      r <- invoke (PutObjectInput bucketName objectKey file) ;;
      match r with
      | inr err =>
          log_Printf ("Couldn't upload file " +:+ fileName +:+ " to " +:+ bucketName
                      +:+ ":" +:+ objectKey +:+ ". Here's why: " +:+ Error err) ;;;
          M_ret (Some err)
      | inl _ => M_ret None
      end
  end.

(** [func (service *s3Service) DownloadFile(bucketName, objectKey, fileName string) error]

    The two early [return err] and the last [return err] are the three
    exits of the Go function; the error of [io.ReadAll] is logged and then
    overwritten by the assignment [_, err = file.Write(body)].  The two
    deferred [Close()] calls return nothing to the caller. *)
Definition DownloadFile (bucketName objectKey fileName : string) : M W (option error) :=
  r <- invoke (GetObjectInput bucketName objectKey None) ;;
  match r with
  | inr err =>
      log_Printf ("Couldn't get object " +:+ bucketName +:+ ":" +:+ objectKey
                  +:+ ". Here's why: " +:+ Error err) ;;;
      M_ret (Some err)
  | inl result =>
      f <- in_world (os_Create env fileName) ;;
      match f with
      | inr err =>
          log_Printf ("Couldn't create file " +:+ fileName +:+ ". Here's why: "
                      +:+ Error err) ;;;
          M_ret (Some err)
      | inl file =>
          let '(body, err) := io_ReadAll (Body result) in
          match err with
          | Some e =>
              log_Printf ("Couldn't read object body from " +:+ objectKey
                          +:+ ". Here's why: " +:+ Error e)
          | None => M_ret tt
          end ;;;
          w <- in_world (file_Write env file body) ;;
          let '(_, err) := w in
          M_ret err
      end
  end.

(** [func (service *s3Service) CopyToFolder(bucketName, objectKey, folderName string) error];
    [fmt.Sprintf("%v/%v", a, b)] on two strings is [a + "/" + b]. *)
Definition CopyToFolder (bucketName objectKey folderName : string) : M W (option error) :=
  r <- invoke (CopyObjectInput bucketName
                 (bucketName +:+ "/" +:+ objectKey)
                 (folderName +:+ "/" +:+ objectKey)) ;;
  match r with
  | inr err =>
      log_Printf ("Couldn't copy object from " +:+ bucketName +:+ ":" +:+ objectKey
                  +:+ " to " +:+ bucketName +:+ ":" +:+ folderName +:+ "/" +:+ objectKey
                  +:+ ". Here's why: " +:+ Error err) ;;;
      M_ret (Some err)
  | inl _ => M_ret None
  end.

(** [func (service *s3Service) ListObjects(bucketName string) ([]types.Object, error)]:
    one [ListObjectsV2] request, no continuation token, [result.Contents]. *)
Definition ListObjects (bucketName : string) : M W (list Object * option error) :=
  r <- invoke (ListObjectsV2Input bucketName None) ;;
  match r with
  | inr err =>
      log_Printf ("Couldn't list objects in bucket " +:+ bucketName
                  +:+ ". Here's why: " +:+ Error err) ;;;
      M_ret ([], Some err)
  | inl result => M_ret (Contents result, None)
  end.

(** [func (service *s3Service) DeleteObjects(bucketName string, objectKeys []string) error];
    the loop builds one [ObjectIdentifier] per key, in order. *)
Definition DeleteObjects (bucketName : string) (objectKeys : list string)
  : M W (option error) :=
  let objectIds := fold_left (fun ids key => (ids ++ [key])%list) objectKeys [] in
  r <- invoke (DeleteObjectsInput bucketName objectIds) ;;
  match r with
  | inr err =>
      log_Printf ("Couldn't delete objects from bucket " +:+ bucketName
                  +:+ ". Here's why: " +:+ Error err) ;;;
      M_ret (Some err)
  | inl _ => M_ret None
  end.

(** [func (service *s3Service) DeleteBucket(bucketName string) error] *)
Definition DeleteBucket (bucketName : string) : M W (option error) :=
  r <- invoke (DeleteBucketInput bucketName) ;;
  match r with
  | inr err =>
      log_Printf ("Couldn't delete bucket " +:+ bucketName
                  +:+ ". Here's why: " +:+ Error err) ;;;
      M_ret (Some err)
  | inl _ => M_ret None
  end.

(** ** The transfer manager against the client *)

(** [manager.NewUploader(client, options)] and
    [manager.NewDownloader(client, options)]: the manager starts from its
    own part size, which the repository does not fix, and applies the
    option function of the caller. *)
Definition manager_NewUploader (option : Uploader -> Uploader) : Uploader :=
  option {| PartSize := manager_DefaultUploadPartSize env |}.

Definition manager_NewDownloader (option : Downloader -> Downloader) : Downloader :=
  option {| Downloader_PartSize := manager_DefaultDownloadPartSize env |}.

(** Modelled from the spec: "abort the session (best-effort; log abort
    failures but surface the original error)". *)
Definition abort_upload (bucket key : string) (uploadId : nat) : M W unit :=
  r <- invoke (AbortMultipartUploadInput bucket key uploadId) ;;
  match r with
  | inr err => log_Printf ("failed to abort multipart upload: " +:+ Error err)
  | inl _ => M_ret tt
  end.

(** Modelled from the spec: the parts are sent in their completion order;
    the first failure stops the remaining ones. *)
Fixpoint upload_parts (bucket key : string) (uploadId : nat)
    (order : list (Z * bytes)) (completed : list CompletedPart)
  : M W (list CompletedPart + error) :=
  match order with
  | [] => M_ret (inl completed)
  | (n, data) :: rest =>
      r <- invoke (UploadPartInput bucket key uploadId n data) ;;
      match r with
      | inr err => M_ret (inr err)
      | inl etag =>
          upload_parts bucket key uploadId rest
            (completed ++ [{| PartNumber := n; Part_ETag := etag |}])%list
      end
  end.

(** Modelled from the spec: [Upload] of [manager.Uploader], section 4.1,
    uploadLargeObject: split, open a session, upload the parts, complete
    with the ordered manifest; on a failure abort and propagate it. *)
Definition Uploader_Upload (u : Uploader) (bucket key : string) (body : bytes)
  : M W (option error) :=
  let parts := number_parts 1 (split_parts (PartSize u) body) in
  s <- invoke (CreateMultipartUploadInput bucket key) ;;
  match s with
  | inr err => M_ret (Some err)
  | inl uploadId =>
      choices <- in_world (fun w => (completion_choices env w, w)) ;;
      r <- upload_parts bucket key uploadId (completion_order choices parts) [] ;;
      match r with
      | inr err => abort_upload bucket key uploadId ;;; M_ret (Some err)
      | inl completed =>
          c <- invoke (CompleteMultipartUploadInput bucket key uploadId
                         (manifest completed)) ;;
          match c with
          | inr err => abort_upload bucket key uploadId ;;; M_ret (Some err)
          | inl _ => M_ret None
          end
      end
  end.

(** Modelled from the spec: one ranged GET per byte range, each chunk
    written at the offset of its range. *)
Fixpoint download_ranges (bucket key : string) (order : list (Z * Z)) (buffer : bytes)
  : M W (bytes * option error) :=
  match order with
  | [] => M_ret (buffer, None)
  | (first, last) :: rest =>
      r <- invoke (GetObjectInput bucket key (Some (first, last))) ;;
      match r with
      | inr err => M_ret (buffer, Some err)
      | inl out =>
          let '(chunk, err) := io_ReadAll (Body out) in
          match err with
          | Some e => M_ret (buffer, Some e)
          | None => download_ranges bucket key rest (WriteAt buffer chunk first)
          end
      end
  end.

(** Modelled from the spec: [Download] of [manager.Downloader], section 4.1,
    downloadLargeObject.  The answer to the first range tells the length
    of the object; the other ranges follow in their completion order. *)
Definition Downloader_Download (d : Downloader) (buffer : bytes) (bucket key : string)
  : M W (bytes * option error) :=
  let partSize := Downloader_PartSize d in
  r <- invoke (GetObjectInput bucket key (Some (0, partSize - 1))) ;;
  match r with
  | inr err => M_ret (buffer, Some err)
  | inl out =>
      let '(chunk, err) := io_ReadAll (Body out) in
      match err with
      | Some e => M_ret (buffer, Some e)
      | None =>
          let total := ObjectLength out in
          choices <- in_world (fun w => (completion_choices env w, w)) ;;
          download_ranges bucket key
            (completion_order choices
               (byte_ranges (Z.to_nat total) partSize partSize total))
            (WriteAt buffer chunk 0)
      end
  end.

(** [func (service *s3Service) UploadLargeObject(bucketName, objectKey string, largeObject []byte) error] *)
Definition UploadLargeObject (bucketName objectKey : string) (largeObject : bytes)
  : M W (option error) :=
  let largeBuffer := largeObject in
  let partMiBs : Z := 10 in
  let uploader := manager_NewUploader (fun u =>
    {| PartSize := int64_mul (int64_mul partMiBs 1024) 1024 |}) in
  err <- Uploader_Upload uploader bucketName objectKey largeBuffer ;;
  match err with
  | Some e =>
      log_Printf ("Couldn't upload large object to " +:+ bucketName +:+ ":"
                  +:+ objectKey +:+ ". Here's why: " +:+ Error e) ;;;
      M_ret (Some e)
  | None => M_ret None
  end.

(** [func (service *s3Service) DownloadLargeObject(bucketName, objectKey string) ([]byte, error)] *)
Definition DownloadLargeObject (bucketName objectKey : string)
  : M W (bytes * option error) :=
  let partMiBs : Z := 10 in
  let downloader := manager_NewDownloader (fun d =>
    {| Downloader_PartSize := int64_mul (int64_mul partMiBs 1024) 1024 |}) in
  let buffer := manager_NewWriteAtBuffer [] in
  r <- Downloader_Download downloader buffer bucketName objectKey ;;
  let '(buffer_Bytes, err) := r in
  match err with
  | Some e =>
      log_Printf ("Couldn't download large object from " +:+ bucketName +:+ ":"
                  +:+ objectKey +:+ ". Here's why: " +:+ Error e)
  | None => M_ret tt
  end ;;;
  M_ret (buffer_Bytes, err).

(** ** The facade as one interface

    The eleven operations of the package, with their arguments. *)
Inductive Operation : Type :=
  | OpListBuckets
  | OpBucketExists (bucketName : string)
  | OpCreateBucket (name region : string)
  | OpUploadFile (bucketName objectKey fileName : string)
  | OpUploadLargeObject (bucketName objectKey : string) (largeObject : bytes)
  | OpDownloadFile (bucketName objectKey fileName : string)
  | OpDownloadLargeObject (bucketName objectKey : string)
  | OpCopyToFolder (bucketName objectKey folderName : string)
  | OpListObjects (bucketName : string)
  | OpDeleteObjects (bucketName : string) (objectKeys : list string)
  | OpDeleteBucket (bucketName : string).

(** The error an operation hands back, whatever else it returns. *)
Definition perform (op : Operation) : M W (option error) :=
  match op with
  | OpListBuckets => r <- ListBuckets ;; M_ret r.2
  | OpBucketExists b => r <- BucketExists b ;; M_ret r.2
  | OpCreateBucket name region => CreateBucket name region
  | OpUploadFile b k f => UploadFile b k f
  | OpUploadLargeObject b k data => UploadLargeObject b k data
  | OpDownloadFile b k f => DownloadFile b k f
  | OpDownloadLargeObject b k => r <- DownloadLargeObject b k ;; M_ret r.2
  | OpCopyToFolder b k folder => CopyToFolder b k folder
  | OpListObjects b => r <- ListObjects b ;; M_ret r.2
  | OpDeleteObjects b keys => DeleteObjects b keys
  | OpDeleteBucket b => DeleteBucket b
  end.

(** What the client answers to a request in a state, and the state it
    leaves. *)
Definition answer (i : Input) (options : s3_Options) (st : State W) : Output i + error :=
  (s3_invoke env i options (world st)).1.

Definition after (i : Input) (options : s3_Options) (st : State W) : State W :=
  Build_State (svc st) (s3_invoke env i options (world st)).2 (logged st).

(** The error of a result, as Go returns it. *)
Definition error_of {A} (r : A + error) : option error :=
  match r with
  | inl _ => None
  | inr err => Some err
  end.

(** An operation that runs to its end once the client is set, and leaves
    the facade struct as it found it. *)
Definition keeps_client {A} (m : M W A) : Prop :=
  forall (st : State W) (options : s3_Options),
    s3Client (svc st) = Some options ->
    exists a st', m st = Some (a, st') /\ svc st' = svc st.

End Facade.

(** ** Recording the requests

    An environment that keeps, next to the world of another one, every
    request the client sent and what it was answered, in the order sent. *)

Definition Exchange : Type := { i : Input & (Output i + error)%type }.

Definition exchange (i : Input) (r : Output i + error) : Exchange := existT i r.

Definition recording {W : Type} (env : Env W) : Env (W * list Exchange) :=
  {| s3_invoke := fun i options w =>
       let r := s3_invoke env i options w.1 in
       (r.1, (r.2, (w.2 ++ [exchange i r.1])%list));
     os_Open := fun name w => let r := os_Open env name w.1 in (r.1, (r.2, w.2));
     os_Create := fun name w => let r := os_Create env name w.1 in (r.1, (r.2, w.2));
     file_Write := fun file p w => let r := file_Write env file p w.1 in (r.1, (r.2, w.2));
     completion_choices := fun w => completion_choices env w.1;
     manager_DefaultUploadPartSize := manager_DefaultUploadPartSize env;
     manager_DefaultDownloadPartSize := manager_DefaultDownloadPartSize env |}.

(** The state without the record. *)
Definition forget {W : Type} (st : State (W * list Exchange)) : State W :=
  Build_State (svc st) (world st).1 (logged st).

(** [m'], over a recording environment, does what [m] does over the
    environment itself. *)
Definition follows {W A : Type} (m' : M (W * list Exchange) A) (m : M W A) : Prop :=
  forall st a st', m' st = Some (a, st') -> m (forget st) = Some (a, forget st').

(** ** An in-memory store

    Modelled from the spec: the remote service and the local file system,
    which are not in the repository.  The store follows section 3 (buckets
    own objects, a bucket is deleted only when empty, a multipart session
    is completed or aborted), section 4.1 (the probe answers "not found" or
    "access denied", a listing comes in pages with a continuation token)
    and the error codes of the service.  Requests can be made to fail
    through a list of faults, one entry consumed per request. *)

Module MemS3.

Record BucketData : Type :=
  { bucket_owner : string;
    bucket_region : string;
    bucket_objects : gmap string bytes }.

(** Modelled from the spec: the states of a MultipartUploadSession,
    section 4.1: [Initiated -> PartsUploading -> { Completed | Aborted }]. *)
Inductive SessionState : Type := Initiated | PartsUploading | Completed | Aborted.

Record Session : Type :=
  { session_bucket : string;
    session_key : string;
    session_parts : gmap Z bytes;
    session_state : SessionState }.

Inductive Fault : Type :=
  | Deliver                               (* the request goes through *)
  | FailRequest (err : error)             (* the request fails, nothing changes *)
  | BreakBody (n : nat) (err : error).    (* a response body breaks after n bytes *)

Record Store : Type :=
  { buckets : gmap string BucketData;
    sessions : list Session;
    files : gmap string bytes;
    max_keys : nat;
    faults : list Fault;
    choices : list nat }.

Definition with_buckets (b : gmap string BucketData) (st : Store) : Store :=
  {| buckets := b; sessions := sessions st; files := files st;
     max_keys := max_keys st; faults := faults st; choices := choices st |}.

Definition with_sessions (s : list Session) (st : Store) : Store :=
  {| buckets := buckets st; sessions := s; files := files st;
     max_keys := max_keys st; faults := faults st; choices := choices st |}.

Definition with_files (f : gmap string bytes) (st : Store) : Store :=
  {| buckets := buckets st; sessions := sessions st; files := f;
     max_keys := max_keys st; faults := faults st; choices := choices st |}.

Definition with_faults (f : list Fault) (st : Store) : Store :=
  {| buckets := buckets st; sessions := sessions st; files := files st;
     max_keys := max_keys st; faults := f; choices := choices st |}.

Definition with_objects (objects : gmap string bytes) (d : BucketData) : BucketData :=
  {| bucket_owner := bucket_owner d; bucket_region := bucket_region d;
     bucket_objects := objects |}.

Definition with_state (s : SessionState) (parts : gmap Z bytes) (x : Session) : Session :=
  {| session_bucket := session_bucket x; session_key := session_key x;
     session_parts := parts; session_state := s |}.

(** The checksum of a part. *)
Definition etag_of (data : bytes) : ETag :=
  fold_left (fun acc b => (acc * 31 + Z.of_N (Byte.to_N b)) mod 2 ^ 32) data 0.

Definition api_error (operation : string) (a : APIError) : error :=
  err_Wrap ("operation error S3: " +:+ operation) (err_API a).

(** The bucket a request addresses, when the caller owns it. *)
Definition bucket_of (options : s3_Options) (operation bucket : string) (st : Store)
  : BucketData + error :=
  match buckets st !! bucket with
  | None => inr (api_error operation (types_NoSuchBucket bucket))
  | Some d =>
      if decide (bucket_owner d = AccessKeyId options) then inl d
      else inr (api_error operation (smithy_GenericAPIError "AccessDenied" "Access Denied"))
  end.

Definition store_object (bucket key : string) (data : bytes) (d : BucketData) (st : Store)
  : Store :=
  with_buckets (<[bucket := with_objects (<[key := data]> (bucket_objects d)) d]> (buckets st)) st.

(** [srcBucket/srcKey]: the source bucket ends at the first slash. *)
Fixpoint cut_at_slash (s : string) : option (string * string) :=
  match s with
  | EmptyString => None
  | String c rest =>
      if Ascii.eqb c "/"%char then Some (EmptyString, rest)
      else match cut_at_slash rest with
           | Some (b, k) => Some (String c b, k)
           | None => None
           end
  end.

Fixpoint has_slash (s : string) : bool :=
  match s with
  | EmptyString => false
  | String c rest => Ascii.eqb c "/"%char || has_slash rest
  end.

Definition object_of (entry : string * bytes) : Object :=
  {| Object_Key := entry.1; Object_Size := Z.of_nat (length entry.2);
     Object_ETag := etag_of entry.2 |}.

(** Modelled from the spec: the listing of a bucket, which the service
    enumerates in the order of the keys and hands out in pages. *)
Definition key_le (a b : Object) : Prop := String.leb (Object_Key a) (Object_Key b) = true.

#[global] Instance key_le_dec : RelDecision key_le.
Proof. intros a b. unfold key_le. apply _. Defined.

Definition listing (d : BucketData) : list Object :=
  merge_sort key_le (object_of <$> map_to_list (bucket_objects d)).

(** What follows the object a continuation token names. *)
Fixpoint after_token (token : string) (l : list Object) : list Object :=
  match l with
  | [] => []
  | o :: rest => if decide (Object_Key o = token) then rest else after_token token rest
  end.

Definition page (n : nat) (token : option string) (all : list Object) : ListObjectsV2Output :=
  let pending := match token with Some t => after_token t all | None => all end in
  let truncated := bool_decide (n < length pending)%nat in
  {| Contents := take n pending;
     IsTruncated := truncated;
     NextContinuationToken :=
       if truncated then Object_Key <$> last (take n pending) else None |}.

Definition active (x : Session) : bool :=
  match session_state x with
  | Initiated | PartsUploading => true
  | Completed | Aborted => false
  end.

(** The session an upload id names, for this bucket and key. *)
Definition session_of (operation bucket key : string) (uploadId : nat) (st : Store)
  : Session + error :=
  match sessions st !! uploadId with
  | Some x =>
      if decide (session_bucket x = bucket /\ session_key x = key) then inl x
      else inr (api_error operation (smithy_GenericAPIError "NoSuchUpload" ""))
  | None => inr (api_error operation (smithy_GenericAPIError "NoSuchUpload" ""))
  end.

(** Part numbers of a manifest must strictly ascend. *)
Fixpoint ascending (prev : Z) (parts : list CompletedPart) : bool :=
  match parts with
  | [] => true
  | p :: rest => (prev <? PartNumber p) && ascending (PartNumber p) rest
  end.

(** The object a manifest describes: the stored parts it lists, in its
    order, each checked against its checksum. *)
Fixpoint assemble (stored : gmap Z bytes) (parts : list CompletedPart) : option bytes :=
  match parts with
  | [] => Some []
  | p :: rest =>
      match stored !! PartNumber p with
      | Some data =>
          if decide (etag_of data = Part_ETag p)
          then app data <$> assemble stored rest
          else None
      | None => None
      end
  end.

(** *** The requests *)

Definition list_buckets (options : s3_Options) (st : Store) : (list Bucket + error) * Store :=
  let owned := filter (fun e => bucket_owner e.2 = AccessKeyId options)
                 (map_to_list (buckets st)) in
  (inl ((fun e => {| Bucket_Name := e.1 |}) <$> owned), st).

(** Modelled from the spec: the existence probe of section 4.1 answers
    404 for an absent bucket and 403 for another principal's bucket. *)
Definition head_bucket (options : s3_Options) (bucket : string) (st : Store)
  : (unit + error) * Store :=
  match buckets st !! bucket with
  | None => (inr (api_error "HeadBucket" (types_NotFound "Not Found")), st)
  | Some d =>
      if decide (bucket_owner d = AccessKeyId options) then (inl tt, st)
      else (inr (api_error "HeadBucket" (smithy_GenericAPIError "Forbidden" "Forbidden")), st)
  end.

(** Modelled from the spec: a region identifier is well formed when it is
    not empty and made of lower-case letters, digits and hyphens, as
    [sa-east-1] is; section 4.1 leaves "malformed" open. *)
Definition region_char (c : ascii) : bool :=
  let n := nat_of_ascii c in
  ((97 <=? n) && (n <=? 122) || (48 <=? n) && (n <=? 57) || (n =? 45))%nat.

Fixpoint region_chars (s : string) : bool :=
  match s with
  | EmptyString => true
  | String c rest => region_char c && region_chars rest
  end.

Definition valid_region (region : string) : bool :=
  match region with
  | EmptyString => false
  | _ => region_chars region
  end.

(** Modelled from the spec: section 4.1, createBucket "fails with
    NameConflictError if owned by another principal, InvalidRegionError for
    malformed region identifiers", and section 7, "ValidationError
    (malformed input, e.g. empty bucket name)".  Section 4.1 leaves open
    whether creating a bucket the caller owns again is an error; the store
    answers [BucketAlreadyOwnedByYou].  No failure changes the store. *)
Definition create_bucket (options : s3_Options) (bucket region : string) (st : Store)
  : (unit + error) * Store :=
  if decide (bucket = "") then
    (inr (api_error "CreateBucket"
            (smithy_GenericAPIError "ValidationError" "empty bucket name")), st)
  else if negb (valid_region region) then
    (inr (api_error "CreateBucket" (smithy_GenericAPIError "InvalidRegionError" region)), st)
  else
    match buckets st !! bucket with
    | Some d =>
        if decide (bucket_owner d = AccessKeyId options)
        then (inr (api_error "CreateBucket" (types_BucketAlreadyOwnedByYou bucket)), st)
        else (inr (api_error "CreateBucket" (types_BucketAlreadyExists bucket)), st)
    | None =>
        (inl tt,
         with_buckets (<[bucket := {| bucket_owner := AccessKeyId options;
                                      bucket_region := region;
                                      bucket_objects := ∅ |}]> (buckets st)) st)
    end.

Definition put_object (options : s3_Options) (bucket key : string) (body : bytes)
    (st : Store) : (unit + error) * Store :=
  match bucket_of options "PutObject" bucket st with
  | inr err => (inr err, st)
  | inl d => (inl tt, store_object bucket key body d st)
  end.

(** A range names its first and last byte. *)
Definition slice (range : option (Z * Z)) (data : bytes) : bytes :=
  match range with
  | None => data
  | Some (first, last) =>
      take (Z.to_nat (last - first + 1)) (drop (Z.to_nat first) data)
  end.

Definition get_object (options : s3_Options) (bucket key : string)
    (range : option (Z * Z)) (st : Store) : (GetObjectOutput + error) * Store :=
  match bucket_of options "GetObject" bucket st with
  | inr err => (inr err, st)
  | inl d =>
      match bucket_objects d !! key with
      | None => (inr (api_error "GetObject" (types_NoSuchKey key)), st)
      | Some data =>
          (inl {| Body := {| stream_data := slice range data; stream_err := None |};
                  ObjectLength := Z.of_nat (length data) |}, st)
      end
  end.

Definition copy_object (options : s3_Options) (bucket copySource key : string)
    (st : Store) : (unit + error) * Store :=
  match cut_at_slash copySource with
  | None =>
      (inr (api_error "CopyObject" (smithy_GenericAPIError "InvalidArgument" copySource)), st)
  | Some (srcBucket, srcKey) =>
      match bucket_of options "CopyObject" srcBucket st with
      | inr err => (inr err, st)
      | inl src =>
          match bucket_objects src !! srcKey with
          | None => (inr (api_error "CopyObject" (types_NoSuchKey srcKey)), st)
          | Some data =>
              match bucket_of options "CopyObject" bucket st with
              | inr err => (inr err, st)
              | inl d => (inl tt, store_object bucket key data d st)
              end
          end
      end
  end.

Definition list_objects_v2 (options : s3_Options) (bucket : string)
    (token : option string) (st : Store) : (ListObjectsV2Output + error) * Store :=
  match bucket_of options "ListObjectsV2" bucket st with
  | inr err => (inr err, st)
  | inl d => (inl (page (max_keys st) token (listing d)), st)
  end.

Definition delete_objects (options : s3_Options) (bucket : string) (keys : list string)
    (st : Store) : (unit + error) * Store :=
  match bucket_of options "DeleteObjects" bucket st with
  | inr err => (inr err, st)
  | inl d =>
      let remaining := foldr delete (bucket_objects d) keys in
      (inl tt, with_buckets (<[bucket := with_objects remaining d]> (buckets st)) st)
  end.

(** Modelled from the spec: section 3, a bucket "must be empty --
    deletion fails otherwise". *)
Definition delete_bucket (options : s3_Options) (bucket : string) (st : Store)
  : (unit + error) * Store :=
  match bucket_of options "DeleteBucket" bucket st with
  | inr err => (inr err, st)
  | inl d =>
      if decide (bucket_objects d = ∅)
      then (inl tt, with_buckets (delete bucket (buckets st)) st)
      else (inr (api_error "DeleteBucket"
                   (smithy_GenericAPIError "BucketNotEmpty"
                      "The bucket you tried to delete is not empty")), st)
  end.

Definition create_multipart_upload (options : s3_Options) (bucket key : string)
    (st : Store) : (nat + error) * Store :=
  match bucket_of options "CreateMultipartUpload" bucket st with
  | inr err => (inr err, st)
  | inl _ =>
      (inl (length (sessions st)),
       with_sessions (sessions st ++ [{| session_bucket := bucket; session_key := key;
                                         session_parts := ∅;
                                         session_state := Initiated |}]) st)
  end.

Definition upload_part (options : s3_Options) (bucket key : string) (uploadId : nat)
    (partNumber : Z) (body : bytes) (st : Store) : (ETag + error) * Store :=
  match session_of "UploadPart" bucket key uploadId st with
  | inr err => (inr err, st)
  | inl x =>
      if active x then
        (inl (etag_of body),
         with_sessions (<[uploadId := with_state PartsUploading
                                        (<[partNumber := body]> (session_parts x)) x]>
                          (sessions st)) st)
      else (inr (api_error "UploadPart" (smithy_GenericAPIError "NoSuchUpload" "")), st)
  end.

(** Modelled from the spec: completing "aggregates part checksums into a
    final object" and ends the session; nothing is stored unless the
    manifest ascends and every part it lists is there. *)
Definition complete_multipart_upload (options : s3_Options) (bucket key : string)
    (uploadId : nat) (parts : list CompletedPart) (st : Store) : (unit + error) * Store :=
  match session_of "CompleteMultipartUpload" bucket key uploadId st with
  | inr err => (inr err, st)
  | inl x =>
      if negb (active x) then
        (inr (api_error "CompleteMultipartUpload" (smithy_GenericAPIError "NoSuchUpload" "")), st)
      else if negb (ascending 0 parts) then
        (inr (api_error "CompleteMultipartUpload"
                (smithy_GenericAPIError "InvalidPartOrder" "")), st)
      else
        match assemble (session_parts x) parts with
        | None =>
            (inr (api_error "CompleteMultipartUpload"
                    (smithy_GenericAPIError "InvalidPart" "")), st)
        | Some data =>
            match bucket_of options "CompleteMultipartUpload" bucket st with
            | inr err => (inr err, st)
            | inl d =>
                (inl tt,
                 with_sessions (<[uploadId := with_state Completed ∅ x]> (sessions st))
                   (store_object bucket key data d st))
            end
        end
  end.

(** Modelled from the spec: aborting "releases provider-side resources";
    Completed and Aborted are terminal, "the aborted state cannot revert". *)
Definition abort_multipart_upload (options : s3_Options) (bucket key : string)
    (uploadId : nat) (st : Store) : (unit + error) * Store :=
  match session_of "AbortMultipartUpload" bucket key uploadId st with
  | inr err => (inr err, st)
  | inl x =>
      match session_state x with
      | Completed =>
          (inr (api_error "AbortMultipartUpload" (smithy_GenericAPIError "NoSuchUpload" "")), st)
      | _ => (inl tt, with_sessions (<[uploadId := with_state Aborted ∅ x]> (sessions st)) st)
      end
  end.

(** The request as the service handles it. *)
Definition serve (i : Input) (options : s3_Options) : Store -> (Output i + error) * Store :=
  match i return Store -> (Output i + error) * Store with
  | ListBucketsInput => list_buckets options
  | HeadBucketInput b => head_bucket options b
  | CreateBucketInput b region => create_bucket options b region
  | PutObjectInput b k body => put_object options b k body
  | GetObjectInput b k range => get_object options b k range
  | CopyObjectInput b src k => copy_object options b src k
  | ListObjectsV2Input b token => list_objects_v2 options b token
  | DeleteObjectsInput b keys => delete_objects options b keys
  | DeleteBucketInput b => delete_bucket options b
  | CreateMultipartUploadInput b k => create_multipart_upload options b k
  | UploadPartInput b k id n body => upload_part options b k id n body
  | CompleteMultipartUploadInput b k id parts => complete_multipart_upload options b k id parts
  | AbortMultipartUploadInput b k id => abort_multipart_upload options b k id
  end.

(** A body that breaks after [n] bytes. *)
Definition break_body (n : nat) (err : error) (i : Input) : Output i -> Output i :=
  match i return Output i -> Output i with
  | GetObjectInput _ _ _ => fun out =>
      {| Body := {| stream_data := take n (stream_data (Body out)); stream_err := Some err |};
         ObjectLength := ObjectLength out |}
  | _ => fun out => out
  end.

(** The request as the client sees it: the next fault decides whether it
    reaches the service. *)
Definition send (i : Input) (options : s3_Options) (st : Store)
  : (Output i + error) * Store :=
  match faults st with
  | [] => serve i options st
  | Deliver :: later => serve i options (with_faults later st)
  | FailRequest err :: later => (inr err, with_faults later st)
  | BreakBody n err :: later =>
      match serve i options (with_faults later st) with
      | (inl out, st') => (inl (break_body n err i out), st')
      | (inr e, st') => (inr e, st')
      end
  end.

(** Whether the next request is lost before it reaches the service, and
    the store once the next fault is consumed. *)
Definition refuses (f : list Fault) : bool :=
  match f with
  | FailRequest _ :: _ => true
  | _ => false
  end.

Definition next (st : Store) : Store := with_faults (tl (faults st)) st.

(** A session that still takes parts, for this bucket and key, holding
    [parts]. *)
Definition session_at (st : Store) (uploadId : nat) (bucket key : string)
    (parts : gmap Z bytes) : Prop :=
  exists x, sessions st !! uploadId = Some x /\
            session_bucket x = bucket /\ session_key x = key /\
            active x = true /\ session_parts x = parts.

(** The entry of a part in a manifest. *)
Definition completed_part (e : Z * bytes) : CompletedPart :=
  {| PartNumber := e.1; Part_ETag := etag_of e.2 |}.

(** The parts a session holds after it took [order]. *)
Definition store_parts (parts : gmap Z bytes) (order : list (Z * bytes)) : gmap Z bytes :=
  foldl (fun m e => <[e.1 := e.2]> m) parts order.

(** The buffer after the chunks of [data] in the ranges [order] were
    written to it. *)
Definition write_ranges (data : bytes) (buffer : bytes) (order : list (Z * Z)) : bytes :=
  foldl (fun buf r => WriteAt buf (slice (Some r) data) r.1) buffer order.

(** *** The local files *)

Definition open_file (name : string) (st : Store) : (bytes + error) * Store :=
  match files st !! name with
  | Some data => (inl data, st)
  | None => (inr (err_Other ("open " +:+ name +:+ ": no such file or directory")), st)
  end.

Definition create_file (name : string) (st : Store) : (string + error) * Store :=
  (inl name, with_files (<[name := []]> (files st)) st).

Definition write_file (file : string) (p : bytes) (st : Store) : (Z * option error) * Store :=
  match files st !! file with
  | Some data => ((Z.of_nat (length p), None), with_files (<[file := data ++ p]> (files st)) st)
  | None => ((0, Some (err_Other ("write " +:+ file +:+ ": file already closed"))), st)
  end.

Definition env : Env Store :=
  {| s3_invoke := send;
     os_Open := open_file;
     os_Create := create_file;
     file_Write := write_file;
     completion_choices := choices;
     manager_DefaultUploadPartSize := 5 * 1024 * 1024;
     manager_DefaultDownloadPartSize := 5 * 1024 * 1024 |}.

(** A facade state over the store, after [NewClient options]. *)
Definition connected (options : s3_Options) (st : Store) : State Store :=
  {| svc := {| s3Client := Some options |}; world := st; logged := [] |}.

End MemS3.

(** ** Sample values

    The region and the key names of [main], a bucket owned by the caller
    and one owned by somebody else. *)

Module Sample.

Definition options : s3_Options :=
  {| Region := "sa-east-1"; AccessKeyId := "AKIDEXAMPLE"; SecretAccessKey := "secret" |}.

Definition report : bytes := [Byte.x72; Byte.x65; Byte.x70; Byte.x6f; Byte.x72; Byte.x74].

Definition movie : bytes :=
  [Byte.x00; Byte.x01; Byte.x02; Byte.x03; Byte.x04;
   Byte.x05; Byte.x06; Byte.x07; Byte.x08; Byte.x09].

Definition photos : MemS3.BucketData :=
  {| MemS3.bucket_owner := "AKIDEXAMPLE"; MemS3.bucket_region := "sa-east-1";
     MemS3.bucket_objects :=
       {[ "a.txt" := [Byte.x61]; "b.txt" := [Byte.x62]; "report" := report ]} |}.

Definition vault : MemS3.BucketData :=
  {| MemS3.bucket_owner := "SOMEBODYELSE"; MemS3.bucket_region := "us-east-1";
     MemS3.bucket_objects := ∅ |}.

Definition inbox : MemS3.BucketData :=
  {| MemS3.bucket_owner := "AKIDEXAMPLE"; MemS3.bucket_region := "sa-east-1";
     MemS3.bucket_objects := ∅ |}.

(** A service whose pages hold two objects. *)
Definition store : MemS3.Store :=
  {| MemS3.buckets := {[ "photos" := photos; "vault" := vault; "inbox" := inbox ]};
     MemS3.sessions := [];
     MemS3.files := ∅;
     MemS3.max_keys := 2;
     MemS3.faults := [];
     MemS3.choices := [3; 1; 4; 1; 5]%nat |}.

Definition state : State MemS3.Store := MemS3.connected options store.

Definition failing (f : list MemS3.Fault) : State MemS3.Store :=
  MemS3.connected options (MemS3.with_faults f store).

End Sample.

(** ** The operations that are one request

    Five operations build one input, send it and hand back its error. *)
Definition request_of (op : Operation) : option Input :=
  match op with
  | OpListBuckets => Some ListBucketsInput
  | OpCreateBucket name region => Some (CreateBucketInput name region)
  | OpCopyToFolder bucketName objectKey folderName =>
      Some (CopyObjectInput bucketName
              (bucketName +:+ "/" +:+ objectKey) (folderName +:+ "/" +:+ objectKey))
  | OpListObjects bucketName => Some (ListObjectsV2Input bucketName None)
  | OpDeleteBucket bucketName => Some (DeleteBucketInput bucketName)
  | _ => None
  end.

(** ** Package [config] and package [main]

    [config.LoadVariables] reads a [.env] file through [godotenv.Load] and
    three variables through [os.Getenv]; [main] binds the client, lists
    one bucket and prints its objects.  The two libraries and
    [json.MarshalIndent] are taken as an interface [Host]. *)

(** [type variables struct] of package [config]. *)
Record variables : Type :=
  { AwsS3Bucket : string; AwsAccessKeyId : string; AwsSecretAccessKey : string }.

Record Host (W : Type) : Type :=
  { (* godotenv.Load(): err *)
    godotenv_Load : W -> option error * W;
    (* os.Getenv(name) *)
    os_Getenv : string -> W -> string;
    (* json.MarshalIndent(data, prefix, indent) on a types.Object: (result, err) *)
    json_MarshalIndent : Object -> string -> string -> string + error }.

Arguments godotenv_Load {W} _ _.
Arguments os_Getenv {W} _ _ _.
Arguments json_MarshalIndent {W} _ _ _ _.

(** The program: the facade's state with the singleton [application.S3],
    the global [config.Variables] and what was printed. *)
Record Process (W : Type) : Type :=
  { facade : State W; Variables : variables; stdout : list string }.

Arguments facade {W} _.
Arguments Variables {W} _.
Arguments stdout {W} _.
Arguments Build_Process {W} _ _ _.

(** How [main] ends: it returns, or [log.Fatalln] exits the process. *)
Inductive Exit : Type :=
  | Return
  | os_Exit (code : Z).

Section Program.

Context {W : Type} (env : Env W) (host : Host W).

(** [log.Println] and [log.Fatalln] write one line to the log. *)
Definition log_Println (line : string) (st : State W) : State W :=
  Build_State (svc st) (world st) (logged st ++ [line]).

(** [func LoadVariables() error] *)
Definition LoadVariables (p : Process W) : option error * Process W :=
  let '(err, w) := godotenv_Load host (world (facade p)) in
  let st := Build_State (svc (facade p)) w (logged (facade p)) in
  let st :=
    match err with
    | None => log_Println "environmental variables loaded from .env file" st
    | Some _ => st
    end in
  (None,
   Build_Process st
     {| AwsS3Bucket := os_Getenv host "AWS_S3_BUCKET" (world st);
        AwsAccessKeyId := os_Getenv host "AWS_ACCESS_KEY_ID" (world st);
        AwsSecretAccessKey := os_Getenv host "AWS_SECRET_ACCESS_KEY" (world st) |}
     (stdout p)).

(** [func printStruct(data any) (string, error)], at the one type [main]
    calls it with. *)
Definition printStruct (data : Object) : string * option error :=
  match json_MarshalIndent host data "" "    " with
  | inr err => ("", Some err)
  | inl result => (result, None)
  end.

(** [fmt.Println(s, err)]: the operands separated by a space. *)
Definition fmt_Println (r : string * option error) : string :=
  r.1 +:+ " " +:+ match r.2 with Some err => Error err | None => "<nil>" end.

(** [func main()]; the loop prints the objects from index 0 upwards. *)
Definition main (p : Process W) : option (Exit * Process W) :=
  let '(err, p) := LoadVariables p in
  match err with
  | Some e =>
      Some (os_Exit 1,
            Build_Process
              (log_Println ("Error loading environment variables >>  " +:+ Error e)
                 (facade p))
              (Variables p) (stdout p))
  | None =>
      match NewClient {| Region := "sa-east-1";
                         AccessKeyId := AwsAccessKeyId (Variables p);
                         SecretAccessKey := AwsSecretAccessKey (Variables p) |}
              (facade p) with
      | None => None
      | Some (_, st) =>
          match ListObjects env (AwsS3Bucket (Variables p)) st with
          | None => None
          | Some ((objects, err), st) =>
              match err with
              | Some e =>
                  Some (os_Exit 1,
                        Build_Process
                          (log_Println ("Error listing objects >>  " +:+ Error e) st)
                          (Variables p) (stdout p))
              | None =>
                  Some (Return,
                        Build_Process st (Variables p)
                          (fold_left (fun out o => out ++ [fmt_Println (printStruct o)])
                             objects (stdout p)))
              end
          end
      end
  end.

End Program.

(** ** A machine for the program

    The in-memory store together with the environment of the process and
    the [.env] file of the working directory. *)

Module Machine.

Record t : Type :=
  { s3 : MemS3.Store;
    environ : gmap string string;
    dotenv : option (list (string * string)) }.

Definition with_s3 (s : MemS3.Store) (m : t) : t :=
  {| s3 := s; environ := environ m; dotenv := dotenv m |}.

Definition lift {A} (f : MemS3.Store -> A * MemS3.Store) (m : t) : A * t :=
  let '(a, s) := f (s3 m) in (a, with_s3 s m).

Definition env : Env t :=
  {| s3_invoke := fun i options => lift (MemS3.send i options);
     os_Open := fun name => lift (MemS3.open_file name);
     os_Create := fun name => lift (MemS3.create_file name);
     file_Write := fun file p => lift (MemS3.write_file file p);
     completion_choices := fun m => MemS3.choices (s3 m);
     manager_DefaultUploadPartSize := manager_DefaultUploadPartSize MemS3.env;
     manager_DefaultDownloadPartSize := manager_DefaultDownloadPartSize MemS3.env |}.

(** [godotenv.Load] fails without a [.env] file; with one it sets the
    variables of the file that the process does not have yet. *)
Definition load (m : t) : option error * t :=
  match dotenv m with
  | None => (Some (err_Other "open .env: no such file or directory"), m)
  | Some entries =>
      (None,
       {| s3 := s3 m;
          environ := fold_left (fun e kv =>
                                  match e !! kv.1 with
                                  | Some _ => e
                                  | None => <[kv.1 := kv.2]> e
                                  end) entries (environ m);
          dotenv := dotenv m |})
  end.

(** [os.Getenv]: the empty string for a variable that is not set. *)
Definition getenv (name : string) (m : t) : string := default "" (environ m !! name).

Definition marshal (o : Object) (prefix indent : string) : string + error :=
  inl ("{" +:+ indent +:+ "Key: " +:+ Object_Key o +:+ "}").

Definition host : Host t :=
  {| godotenv_Load := load; os_Getenv := getenv; json_MarshalIndent := marshal |}.

(** The process as it starts: no client, nothing logged, nothing printed. *)
Definition start (m : t) : Process t :=
  {| facade := {| svc := {| s3Client := None |}; world := m; logged := [] |};
     Variables := {| AwsS3Bucket := ""; AwsAccessKeyId := ""; AwsSecretAccessKey := "" |};
     stdout := [] |}.

End Machine.

Module Demo.

Definition notes : bytes := [Byte.x6e; Byte.x6f; Byte.x74; Byte.x65; Byte.x73].

(** The sample store with one local file. *)
Definition store : MemS3.Store :=
  MemS3.with_files {[ "notes.txt" := notes ]} Sample.store.

Definition state : State MemS3.Store := MemS3.connected Sample.options store.

(** A machine configured through its [.env] file, and one that is not
    configured at all. *)
Definition configured : Machine.t :=
  {| Machine.s3 := Sample.store;
     Machine.environ := {[ "AWS_S3_BUCKET" := "photos" ]};
     Machine.dotenv := Some [("AWS_ACCESS_KEY_ID", "AKIDEXAMPLE");
                             ("AWS_SECRET_ACCESS_KEY", "secret");
                             ("AWS_S3_BUCKET", "ignored")] |}.

Definition bare : Machine.t :=
  {| Machine.s3 := Sample.store; Machine.environ := ∅; Machine.dotenv := None |}.

(** The in-memory store in a directory that cannot be written to. *)
Definition readonly : Env MemS3.Store :=
  {| s3_invoke := MemS3.send;
     os_Open := MemS3.open_file;
     os_Create := fun name st =>
       (inr (err_Other ("open " +:+ name +:+ ": permission denied")), st);
     file_Write := MemS3.write_file;
     completion_choices := MemS3.choices;
     manager_DefaultUploadPartSize := manager_DefaultUploadPartSize MemS3.env;
     manager_DefaultDownloadPartSize := manager_DefaultDownloadPartSize MemS3.env |}.

(** A process that has not called [NewClient]. *)
Definition unbound : State MemS3.Store :=
  {| svc := {| s3Client := None |}; world := store; logged := [] |}.

(** The sample store with its requests recorded, none sent yet. *)
Definition recorded : State (MemS3.Store * list Exchange) :=
  {| svc := {| s3Client := Some Sample.options |};
     world := (Sample.store, []);
     logged := [] |}.

End Demo.

(** Two buckets of one owner: the name of the second is the name of the
    first, a slash, and more. *)
Module Nested.

Definition outer : MemS3.BucketData :=
  {| MemS3.bucket_owner := "AKIDEXAMPLE"; MemS3.bucket_region := "sa-east-1";
     MemS3.bucket_objects := {[ "b/report" := Sample.report ]} |}.

Definition inner : MemS3.BucketData :=
  {| MemS3.bucket_owner := "AKIDEXAMPLE"; MemS3.bucket_region := "sa-east-1";
     MemS3.bucket_objects := ∅ |}.

Definition store : MemS3.Store :=
  {| MemS3.buckets := {[ "a" := outer; "a/b" := inner ]};
     MemS3.sessions := [];
     MemS3.files := ∅;
     MemS3.max_keys := 2;
     MemS3.faults := [];
     MemS3.choices := [] |}.

Definition state : State MemS3.Store := MemS3.connected Sample.options store.

End Nested.

(** * Properties *)

Lemma MemS3_cut_at_slash_app (bucket key : string) :
  MemS3.has_slash bucket = false ->
  MemS3.cut_at_slash (bucket +:+ "/" +:+ key) = Some (bucket, key).
Proof.
  induction bucket as [|c bucket IH]; intros H; [done|].
  cbn [MemS3.has_slash] in H. apply orb_false_elim in H as [Hc Hb].
  change (String c bucket +:+ "/" +:+ key) with (String c (bucket +:+ "/" +:+ key)).
  cbn [MemS3.cut_at_slash]. rewrite Hc. by rewrite IH.
Qed.

(** ** The transfer manager: parts, orders and manifests *)


Lemma facade_part_size : int64_mul (int64_mul 10 1024) 1024 = 10 * 1024 * 1024.
Proof. reflexivity. Qed.

Lemma fill_parts_concat (partSize room : Z) (cur source : bytes) :
  concat (fill_parts partSize room cur source) = rev cur ++ source.
Proof.
  revert room cur. induction source as [|b rest IH]; intros room cur; cbn.
  - destruct cur; [done|]. cbn. by rewrite !app_nil_r.
  - destruct (room <=? 1); cbn; rewrite IH; cbn; by rewrite <- app_assoc.
Qed.

Lemma split_parts_concat (partSize : Z) (source : bytes) :
  concat (split_parts partSize source) = source.
Proof. apply fill_parts_concat. Qed.

(** Part [i] of a source holds its bytes from [i * partSize] on, at most
    [partSize] of them. *)
Lemma fill_parts_lookup (partSize room : Z) (cur source : bytes) (i : nat) :
  1 <= partSize ->
  room = partSize - Z.of_nat (length cur) ->
  Z.of_nat (length cur) < partSize ->
  fill_parts partSize room cur source !! i
  = if decide (i * Z.to_nat partSize < length (rev cur ++ source))%nat
    then Some (take (Z.to_nat partSize) (drop (i * Z.to_nat partSize) (rev cur ++ source)))
    else None.
Proof.
  intros Hp. revert room cur i.
  induction source as [|b rest IH]; intros room cur i Hroom Hcur.
  - rewrite app_nil_r. cbn [fill_parts]. destruct cur as [|c cur'].
    + cbn [rev length]. rewrite lookup_nil. case_decide; [lia|done].
    + cbv iota. remember (c :: cur') as cur eqn:Hcur'.
      assert (0 < length (rev cur) < Z.to_nat partSize)%nat as Hlen
        by (rewrite length_rev; subst cur; cbn [length] in *; lia).
      destruct i as [|i]; rewrite lookup_cons; cbv iota.
      * case_decide; [|lia]. rewrite Nat.mul_0_l, drop_0. by rewrite take_ge by lia.
      * rewrite ?lookup_nil. case_decide; [nia|done].
  - cbn [fill_parts].
    assert (rev cur ++ b :: rest = rev (b :: cur) ++ rest) as Hall
      by (cbn [rev]; by rewrite <- app_assoc).
    destruct (room <=? 1) eqn:Hr.
    + apply Z.leb_le in Hr.
      assert (length (rev (b :: cur)) = Z.to_nat partSize) as Hlen
        by (rewrite length_rev; cbn [length]; lia).
      rewrite Hall. destruct i as [|i]; rewrite lookup_cons; cbv iota.
      * case_decide as Hd; [|rewrite length_app in Hd; lia].
        rewrite Nat.mul_0_l, drop_0. by rewrite take_app_length'.
      * rewrite (IH partSize [] i) by (cbn; lia).
        change (rev [] ++ rest) with rest.
        rewrite length_app, Hlen.
        replace (S i * Z.to_nat partSize)%nat
          with (Z.to_nat partSize + i * Z.to_nat partSize)%nat by lia.
        rewrite <- drop_drop, drop_app_length' by done.
        repeat case_decide; try done; lia.
    + apply Z.leb_gt in Hr.
      rewrite (IH (room - 1) (b :: cur) i) by (cbn [length]; lia).
      by rewrite Hall.
Qed.

Lemma split_parts_lookup (partSize : Z) (source : bytes) (i : nat) :
  1 <= partSize ->
  split_parts partSize source !! i
  = if decide (i * Z.to_nat partSize < length source)%nat
    then Some (take (Z.to_nat partSize) (drop (i * Z.to_nat partSize) source))
    else None.
Proof.
  intros Hp. unfold split_parts.
  rewrite (fill_parts_lookup partSize partSize [] source i) by (cbn; lia). done.
Qed.

Lemma number_parts_numbers (n : Z) (parts : list bytes) :
  (number_parts n parts).*1 = seqZ n (Z.of_nat (length parts)).
Proof.
  revert n. induction parts as [|p rest IH]; intros n; [done|].
  cbn [number_parts fmap list_fmap fst length]. rewrite IH.
  rewrite (seqZ_cons n) by lia. do 2 f_equal; lia.
Qed.

Lemma length_number_parts (n : Z) (parts : list bytes) :
  length (number_parts n parts) = length parts.
Proof.
  revert n. induction parts as [|p rest IH]; intros n; [done|].
  cbn. by rewrite IH.
Qed.

Lemma number_parts_data (n : Z) (parts : list bytes) :
  (number_parts n parts).*2 = parts.
Proof.
  revert n. induction parts as [|p rest IH]; intros n; [done|].
  cbn. by rewrite IH.
Qed.

Lemma complete_next_Permutation {A} (n : nat) (choices : list nat) (pending : list A) :
  length pending = n -> complete_next n choices pending ≡ₚ pending.
Proof.
  revert choices pending. induction n as [|n IH]; intros choices pending Hlen.
  - by destruct pending.
  - cbn [complete_next].
    assert (hd 0 choices mod length pending < length pending)%nat as Hi
      by (apply Nat.mod_upper_bound; lia).
    destruct (lookup_lt_is_Some_2 pending _ Hi) as [x Hx]. rewrite Hx.
    rewrite IH.
    + symmetry. by apply delete_Permutation.
    + rewrite length_delete by eauto. lia.
Qed.

(** Whatever the choices, every request completes once. *)
Lemma completion_order_Permutation {A} (choices : list nat) (requests : list A) :
  completion_order choices requests ≡ₚ requests.
Proof. by apply complete_next_Permutation. Qed.

Lemma manifest_Permutation (completed : list CompletedPart) :
  manifest completed ≡ₚ completed.
Proof. apply merge_sort_Permutation. Qed.

Lemma manifest_Sorted (completed : list CompletedPart) :
  Sorted Z.le (PartNumber <$> manifest completed).
Proof.
  apply (Sorted_fmap _ part_le Z.le); [done|]. apply Sorted_merge_sort, _.
Qed.

Lemma seqZ_Sorted (m n : Z) : Sorted Z.le (seqZ m n).
Proof.
  destruct (decide (n <= 0)) as [|Hn]; [rewrite seqZ_nil by done; constructor|].
  rewrite <- (Z2Nat.id n) by lia. generalize (Z.to_nat n) as k. clear. intros k.
  revert m. induction k as [|k IH]; intros m; [constructor|].
  rewrite seqZ_cons by lia. replace (Z.pred (Z.of_nat (S k))) with (Z.of_nat k) by lia.
  constructor; [apply IH|].
  destruct k; [constructor|]. rewrite seqZ_cons by lia. constructor. lia.
Qed.

(** A manifest of the parts [1 .. n], whatever order they completed in,
    lists them as [1 .. n]. *)
Lemma manifest_ascending (completed : list CompletedPart) (n : nat) :
  PartNumber <$> completed ≡ₚ seqZ 1 (Z.of_nat n) ->
  PartNumber <$> manifest completed = seqZ 1 (Z.of_nat n).
Proof.
  intros Hperm. apply (Sorted_unique Z.le).
  - apply manifest_Sorted.
  - apply seqZ_Sorted.
  - by rewrite manifest_Permutation.
Qed.

Section FacadeProperties.

Context {W : Type} (env : Env W).

Lemma invoke_eq (i : Input) (options : s3_Options) (st : State W) :
  s3Client (svc st) = Some options ->
  invoke env i st = Some (answer env i options st, after env i options st).
Proof.
  intros Hc. unfold invoke, M_bind, client, in_world, answer, after.
  rewrite Hc. cbn. by destruct (s3_invoke env i options (world st)).
Qed.

Lemma IsNotFound_spec (e : error) :
  IsNotFound e <->
  exists a, errors_As_APIError e = Some a /\ is_types_NotFound a = true.
Proof.
  split.
  - intros [msg H]. exists (types_NotFound msg). by split.
  - intros [a [H Ha]]. destruct a; try discriminate. by exists Message.
Qed.

(** The three exits of [BucketExists] on a failed probe. *)
Lemma BucketExists_failed (bucketName : string) (options : s3_Options) (st : State W)
    (e : error) :
  s3Client (svc st) = Some options ->
  answer env (HeadBucketInput bucketName) options st = inr e ->
  exists st',
    BucketExists env bucketName st
    = Some (match errors_As_APIError e with
            | Some a => if is_types_NotFound a then (false, None) else (true, Some e)
            | None => (true, Some e)
            end, st')
    /\ svc st' = svc st.
Proof.
  intros Hc He. unfold BucketExists, M_bind at 1.
  rewrite (invoke_eq _ options) by done. rewrite He.
  destruct (errors_As_APIError e) as [a|]; [destruct (is_types_NotFound a)|];
    cbn; eauto.
Qed.

Lemma BucketExists_succeeded (bucketName : string) (options : s3_Options) (st : State W)
    (u : unit) :
  s3Client (svc st) = Some options ->
  answer env (HeadBucketInput bucketName) options st = inl u ->
  exists st', BucketExists env bucketName st = Some ((true, None), st') /\ svc st' = svc st.
Proof.
  intros Hc He. unfold BucketExists, M_bind at 1.
  rewrite (invoke_eq _ options) by done. rewrite He. cbn. eauto.
Qed.

(** C2. [BucketExists] returns [false] exactly when the probe fails with a
    404-equivalent [NotFound], and then the error is nil; every other
    probe failure comes back as that same non-nil error. *)
Theorem BucketExists_distinguishes_not_found
    (bucketName : string) (options : s3_Options) (st : State W) :
  s3Client (svc st) = Some options ->
  exists (exists_ : bool) (err : option error) (st' : State W),
    BucketExists env bucketName st = Some ((exists_, err), st') /\
    (exists_ = false <->
       exists e, answer env (HeadBucketInput bucketName) options st = inr e /\ IsNotFound e) /\
    (exists_ = false -> err = None) /\
    (forall e, answer env (HeadBucketInput bucketName) options st = inr e ->
               ~ IsNotFound e -> err = Some e).
Proof.
  intros Hc.
  destruct (answer env (HeadBucketInput bucketName) options st) as [u|e] eqn:Hr.
  - destruct (BucketExists_succeeded bucketName options st u Hc Hr) as [st' [Hrun _]].
    exists true, None, st'. split; [done|]. repeat split; try done.
    intros [e [He _]]. discriminate.
  - destruct (BucketExists_failed bucketName options st e Hc Hr) as [st' [Hrun _]].
    destruct (errors_As_APIError e) as [a|] eqn:Ha;
      [destruct (is_types_NotFound a) eqn:Hnf|].
    + exists false, None, st'. split; [done|]. repeat split; try done.
      * intros _. exists e. split; [done|]. apply IsNotFound_spec. eauto.
      * intros e' [= <-] Hn. exfalso. apply Hn, IsNotFound_spec. eauto.
    + exists true, (Some e), st'. split; [done|]. repeat split; try done.
      * intros [e' [[= <-] Hn]]. apply IsNotFound_spec in Hn as [a' [Ha' Hn]].
        congruence.
      * by intros e' [= <-] _.
    + exists true, (Some e), st'. split; [done|]. repeat split; try done.
      * intros [e' [[= <-] Hn]]. apply IsNotFound_spec in Hn as [a' [Ha' Hn]].
        congruence.
      * by intros e' [= <-] _.
Qed.

(** C9. On a probe failure that is not [NotFound], [BucketExists] returns
    [true] together with the probe's error. *)
Theorem BucketExists_true_with_error
    (bucketName : string) (options : s3_Options) (st : State W) (e : error) :
  s3Client (svc st) = Some options ->
  answer env (HeadBucketInput bucketName) options st = inr e ->
  ~ IsNotFound e ->
  exists st', BucketExists env bucketName st = Some ((true, Some e), st').
Proof.
  intros Hc Hr Hn.
  destruct (BucketExists_failed bucketName options st e Hc Hr) as [st' [Hrun _]].
  exists st'. rewrite Hrun.
  destruct (errors_As_APIError e) as [a|] eqn:Ha; [|done].
  destruct (is_types_NotFound a) eqn:Hnf; [|done].
  exfalso. apply Hn, IsNotFound_spec. eauto.
Qed.

(** *** One request per operation *)


(** [ListObjects] sends one request, without a continuation token, and
    returns the contents of that one answer. *)
Lemma ListObjects_single_request (bucketName : string) (options : s3_Options)
    (st : State W) (result : ListObjectsV2Output) :
  s3Client (svc st) = Some options ->
  answer env (ListObjectsV2Input bucketName None) options st = inl result ->
  ListObjects env bucketName st
  = Some ((Contents result, None), after env (ListObjectsV2Input bucketName None) options st).
Proof.
  intros Hc Hr. unfold ListObjects, M_bind at 1.
  rewrite (invoke_eq _ options) by done. by rewrite Hr.
Qed.

Lemma DeleteBucket_single_request (bucketName : string) (options : s3_Options)
    (st : State W) :
  s3Client (svc st) = Some options ->
  exists st',
    DeleteBucket env bucketName st
    = Some (error_of (answer env (DeleteBucketInput bucketName) options st), st') /\
    world st' = world (after env (DeleteBucketInput bucketName) options st).
Proof.
  intros Hc. unfold DeleteBucket, M_bind at 1.
  rewrite (invoke_eq _ options) by done.
  destruct (answer env (DeleteBucketInput bucketName) options st); cbn; eauto.
Qed.

(** The last exit of [DownloadFile]: whatever [io.ReadAll] reported, the
    function returns the error of [file.Write]. *)
Lemma DownloadFile_returns_write_error
    (bucketName objectKey fileName : string) (options : s3_Options) (st : State W)
    (result : GetObjectOutput) (file : string) :
  s3Client (svc st) = Some options ->
  answer env (GetObjectInput bucketName objectKey None) options st = inl result ->
  let st1 := after env (GetObjectInput bucketName objectKey None) options st in
  (os_Create env fileName (world st1)).1 = inl file ->
  let w2 := (os_Create env fileName (world st1)).2 in
  exists st',
    DownloadFile env bucketName objectKey fileName st
    = Some ((file_Write env file (stream_data (Body result)) w2).1.2, st') /\
    world st' = (file_Write env file (stream_data (Body result)) w2).2.
Proof.
  intros Hc Hr st1 Hf w2. unfold DownloadFile, M_bind at 1.
  rewrite (invoke_eq _ options) by done. rewrite Hr. fold st1.
  unfold M_bind at 1, in_world at 1.
  destruct (os_Create env fileName (world st1)) as [f w] eqn:Hcreate.
  cbn in Hf. subst f. subst w2. cbn.
  destruct (stream_err (Body result)); cbn;
    unfold M_bind, in_world, log_Printf, M_ret; cbn;
    destruct (file_Write env file (stream_data (Body result)) w) as [[n werr] w'];
    cbn; eauto.
Qed.

(** *** The facade struct is read only *)

Lemma keeps_ret {A} (a : A) : keeps_client (M_ret (W:=W) a).
Proof. intros st options _. unfold M_ret. eauto. Qed.

Lemma keeps_bind {A B} (m : M W A) (k : A -> M W B) :
  keeps_client m -> (forall a, keeps_client (k a)) -> keeps_client (M_bind m k).
Proof.
  intros Hm Hk st options Hc. unfold M_bind.
  destruct (Hm st options Hc) as [a [st1 [-> Hs]]].
  destruct (Hk a st1 options) as [b [st2 [-> Hs2]]]; [congruence|].
  exists b, st2. split; [done|congruence].
Qed.

Lemma keeps_log (line : string) : keeps_client (log_Printf (W:=W) line).
Proof. intros st options _. unfold log_Printf. eauto. Qed.

Lemma keeps_in_world {A} (f : W -> A * W) : keeps_client (in_world f).
Proof.
  intros st options _. unfold in_world. destruct (f (world st)) as [a w]. eauto.
Qed.

Lemma keeps_invoke (i : Input) : keeps_client (invoke env i).
Proof.
  intros st options Hc. rewrite (invoke_eq _ options) by done. eauto.
Qed.

Create HintDb keeps.
#[local] Hint Resolve keeps_ret keeps_log keeps_in_world keeps_invoke : keeps.

(** Splits an operation along its binds and its case distinctions. *)
Ltac keeps_step :=
  first
    [ solve [auto with keeps]
    | apply keeps_bind; [|intros ?; cbv beta]
    | match goal with
      | |- keeps_client (match ?x with _ => _ end) => destruct x
      | |- keeps_client (if ?x then _ else _) => destruct x
      | |- keeps_client (let '(_, _) := ?x in _) => destruct x
      end ].

Ltac keeps_tac := cbv zeta; repeat keeps_step.

Lemma keeps_abort_upload (bucket key : string) (uploadId : nat) :
  keeps_client (abort_upload env bucket key uploadId).
Proof. unfold abort_upload. keeps_tac. Qed.

Lemma keeps_upload_parts (bucket key : string) (uploadId : nat)
    (order : list (Z * bytes)) (completed : list CompletedPart) :
  keeps_client (upload_parts env bucket key uploadId order completed).
Proof.
  revert completed. induction order as [|[n data] rest IH]; intros completed;
    cbn [upload_parts].
  - auto with keeps.
  - apply keeps_bind; [auto with keeps|]. intros [etag|err]; auto with keeps.
Qed.

Lemma keeps_download_ranges (bucket key : string) (order : list (Z * Z)) (buffer : bytes) :
  keeps_client (download_ranges env bucket key order buffer).
Proof.
  revert buffer. induction order as [|[first last] rest IH]; intros buffer;
    cbn [download_ranges].
  - auto with keeps.
  - apply keeps_bind; [auto with keeps|]. intros [out|err]; [|auto with keeps].
    unfold io_ReadAll. cbv iota. destruct (stream_err (Body out)); auto with keeps.
Qed.

#[local] Hint Resolve keeps_abort_upload keeps_upload_parts keeps_download_ranges : keeps.

Lemma keeps_Uploader_Upload (u : Uploader) (bucket key : string) (body : bytes) :
  keeps_client (Uploader_Upload env u bucket key body).
Proof. unfold Uploader_Upload. keeps_tac. Qed.

Lemma keeps_Downloader_Download (d : Downloader) (buffer : bytes) (bucket key : string) :
  keeps_client (Downloader_Download env d buffer bucket key).
Proof.
  unfold Downloader_Download. cbv zeta.
  apply keeps_bind; [auto with keeps|]. intros [out|err]; [|auto with keeps].
  unfold io_ReadAll. cbv iota. destruct (stream_err (Body out)); keeps_tac.
Qed.

#[local] Hint Resolve keeps_Uploader_Upload keeps_Downloader_Download : keeps.

(** *** Running a sequence *)

Lemma bind_inv {A B} (m : M W A) (k : A -> M W B) (st st' : State W) (b : B) :
  M_bind m k st = Some (b, st') ->
  exists a st1, m st = Some (a, st1) /\ k a st1 = Some (b, st').
Proof.
  unfold M_bind. destruct (m st) as [[a st1]|]; [|done]. eauto.
Qed.

Lemma invoke_inv (i : Input) (st st' : State W) (r : Output i + error) :
  invoke env i st = Some (r, st') ->
  exists options, s3Client (svc st) = Some options /\
                  r = answer env i options st /\ st' = after env i options st.
Proof.
  destruct (s3Client (svc st)) as [options|] eqn:Hc.
  - rewrite (invoke_eq _ options) by done. intros [= <- <-]. eauto.
  - unfold invoke, M_bind, client. by rewrite Hc.
Qed.

(** The parts [upload_parts] reports are the parts it was given, in the
    order it was given them. *)
Lemma upload_parts_numbers (bucket key : string) (uploadId : nat)
    (order : list (Z * bytes)) (completed result : list CompletedPart)
    (st st' : State W) :
  upload_parts env bucket key uploadId order completed st = Some (inl result, st') ->
  PartNumber <$> result = (PartNumber <$> completed) ++ order.*1.
Proof.
  revert completed st. induction order as [|[n data] rest IH]; intros completed st H.
  - cbn in H. injection H as <- <-. by rewrite app_nil_r.
  - cbn [upload_parts] in H. apply bind_inv in H as (r & st1 & _ & H).
    destruct r as [etag|err]; [|done].
    apply IH in H. rewrite H, fmap_app. cbn. by rewrite <- app_assoc.
Qed.

(** The facade's upload is the manager's upload with parts of 10 MiB: the
    same error and the same world; a failure adds a line to the log. *)
Lemma UploadLargeObject_is_Upload (bucketName objectKey : string) (largeObject : bytes)
    (st : State W) :
  match Uploader_Upload env {| PartSize := 10 * 1024 * 1024 |}
          bucketName objectKey largeObject st with
  | Some (err, st1) =>
      exists st', UploadLargeObject env bucketName objectKey largeObject st
                  = Some (err, st') /\
                  world st' = world st1 /\ svc st' = svc st1
  | None => UploadLargeObject env bucketName objectKey largeObject st = None
  end.
Proof.
  unfold UploadLargeObject. cbv zeta. unfold manager_NewUploader.
  rewrite facade_part_size.
  destruct (Uploader_Upload env _ bucketName objectKey largeObject st)
    as [[[e|] st1]|] eqn:Hrun; unfold M_bind; rewrite Hrun; cbn; eauto.
Qed.

Lemma DownloadLargeObject_is_Download (bucketName objectKey : string) (st : State W) :
  match Downloader_Download env {| Downloader_PartSize := 10 * 1024 * 1024 |} []
          bucketName objectKey st with
  | Some (r, st1) =>
      exists st', DownloadLargeObject env bucketName objectKey st = Some (r, st') /\
                  world st' = world st1 /\ svc st' = svc st1
  | None => DownloadLargeObject env bucketName objectKey st = None
  end.
Proof.
  unfold DownloadLargeObject. cbv zeta.
  unfold manager_NewDownloader, manager_NewWriteAtBuffer.
  rewrite facade_part_size.
  destruct (Downloader_Download env _ [] bucketName objectKey st)
    as [[[data [e|]] st1]|] eqn:Hrun; unfold M_bind; rewrite Hrun; cbn; eauto.
Qed.

(** A successful upload went through these three steps. *)
Lemma Upload_succeeded_inv (u : Uploader) (bucket key : string) (body : bytes)
    (options : s3_Options) (st st' : State W) :
  s3Client (svc st) = Some options ->
  Uploader_Upload env u bucket key body st = Some (None, st') ->
  exists uploadId st0 completed st1,
    answer env (CreateMultipartUploadInput bucket key) options st = inl uploadId /\
    st0 = after env (CreateMultipartUploadInput bucket key) options st /\
    upload_parts env bucket key uploadId
      (completion_order (completion_choices env (world st0))
         (number_parts 1 (split_parts (PartSize u) body))) [] st0
    = Some (inl completed, st1) /\
    svc st1 = svc st /\
    answer env (CompleteMultipartUploadInput bucket key uploadId (manifest completed))
      options st1 = inl tt /\
    st' = after env (CompleteMultipartUploadInput bucket key uploadId (manifest completed))
            options st1.
Proof.
  intros Hc H. unfold Uploader_Upload in H. cbv zeta in H.
  apply bind_inv in H as (s & st0 & Hs & H).
  rewrite (invoke_eq _ options) in Hs by done. injection Hs as <- <-.
  destruct (answer env (CreateMultipartUploadInput bucket key) options st)
    as [uploadId|err] eqn:Hcreate; [|done].
  apply bind_inv in H as (choices & st0' & Hch & H).
  unfold in_world in Hch. injection Hch as <- <-.
  apply bind_inv in H as (r & st1 & Hparts & H).
  assert (svc st1 = svc st) as Hsvc.
  { destruct (keeps_upload_parts bucket key uploadId
                (completion_order
                   (completion_choices env
                      (world (after env (CreateMultipartUploadInput bucket key) options st)))
                   (number_parts 1 (split_parts (PartSize u) body))) []
                (after env (CreateMultipartUploadInput bucket key) options st) options Hc)
      as (a & st2 & Hrun & Hs).
    pose proof (eq_trans (eq_sym Hparts) Hrun) as E. by injection E as <- <-. }
  destruct r as [completed|err].
  - apply bind_inv in H as (c & st2 & Hcomplete & H).
    rewrite (invoke_eq _ options) in Hcomplete by congruence.
    injection Hcomplete as <- <-.
    destruct (answer env (CompleteMultipartUploadInput bucket key uploadId
                            (manifest completed)) options st1) as [[]|err] eqn:Hc2.
    + cbn in H. injection H as <-.
      exists uploadId, (after env (CreateMultipartUploadInput bucket key) options st),
        completed, st1.
      by repeat split.
    + apply bind_inv in H as (? & ? & _ & H). done.
  - apply bind_inv in H as (? & ? & _ & H). done.
Qed.

(** C8. Once [NewClient] has set the client, each of the eleven operations
    runs to its end and leaves the facade struct, its only state, as it
    was. *)
Theorem facade_binding_read_only (op : Operation) (options : s3_Options) (st : State W) :
  s3Client (svc st) = Some options ->
  exists err st', perform env op st = Some (err, st') /\ svc st' = svc st.
Proof.
  intros Hc. revert st options Hc. change (keeps_client (perform env op)).
  destruct op; unfold perform, ListBuckets, BucketExists, CreateBucket, UploadFile,
    UploadLargeObject, DownloadFile, DownloadLargeObject, CopyToFolder, ListObjects,
    DeleteObjects, DeleteBucket, io_ReadAll; keeps_tac.
Qed.

(** [NewClient] is the one function that writes the struct. *)
Lemma NewClient_sets_client (options : s3_Options) (st : State W) :
  exists st', NewClient options st = Some (tt, st') /\
              s3Client (svc st') = Some options /\ world st' = world st.
Proof. unfold NewClient. eauto. Qed.

End FacadeProperties.

(** ** The requests of a large upload *)

Section Recorded.

Context {W : Type} (env : Env W).

Implicit Types st : State (W * list Exchange).

Lemma invoke_recorded (i : Input) st st' (r : Output i + error) :
  invoke (recording env) i st = Some (r, st') ->
  svc st' = svc st /\ (world st').2 = (world st).2 ++ [exchange i r].
Proof.
  intros H. apply invoke_inv in H as (options & Hc & -> & ->). by split.
Qed.

(** *** The record changes nothing *)

Lemma follows_ret {A} (a : A) : follows (W:=W) (M_ret a) (M_ret a).
Proof. intros st a' st' [= <- <-]. done. Qed.

Lemma follows_bind {A B} (m' : M (W * list Exchange) A) (m : M W A)
    (k' : A -> M (W * list Exchange) B) (k : A -> M W B) :
  follows m' m -> (forall a, follows (k' a) (k a)) -> follows (M_bind m' k') (M_bind m k).
Proof.
  intros Hm Hk st b st' H. apply bind_inv in H as (a & st1 & H1 & H2).
  unfold M_bind. rewrite (Hm _ _ _ H1). by apply Hk.
Qed.

Lemma follows_log (line : string) : follows (W:=W) (log_Printf line) (log_Printf line).
Proof. intros st a st' [= <- <-]. done. Qed.

Lemma follows_invoke (i : Input) : follows (invoke (recording env) i) (invoke env i).
Proof.
  intros st a st' H. apply invoke_inv in H as (options & Hc & -> & ->).
  by rewrite (invoke_eq env i options (forget st)).
Qed.

Lemma follows_choices :
  follows (in_world (fun w => (completion_choices (recording env) w, w)))
          (in_world (fun w => (completion_choices env w, w))).
Proof. intros st a st' [= <- <-]. done. Qed.

Create HintDb follows.

#[local] Hint Resolve follows_ret follows_log follows_invoke follows_choices : follows.

Ltac follows_step :=
  first
    [ solve [auto with follows]
    | apply follows_bind; [|intros ?; cbv beta]
    | match goal with
      | |- follows (match ?x with _ => _ end) _ => destruct x
      end ].

Ltac follows_tac := cbv zeta; repeat follows_step.

Lemma follows_abort_upload (bucket key : string) (uploadId : nat) :
  follows (abort_upload (recording env) bucket key uploadId)
          (abort_upload env bucket key uploadId).
Proof. unfold abort_upload. follows_tac. Qed.

Lemma follows_upload_parts (bucket key : string) (uploadId : nat)
    (order : list (Z * bytes)) (completed : list CompletedPart) :
  follows (upload_parts (recording env) bucket key uploadId order completed)
          (upload_parts env bucket key uploadId order completed).
Proof.
  revert completed. induction order as [|[n data] rest IH]; intros completed;
    cbn [upload_parts]; follows_tac.
Qed.

#[local] Hint Resolve follows_abort_upload follows_upload_parts : follows.

Lemma follows_Uploader_Upload (u : Uploader) (bucket key : string) (body : bytes) :
  follows (Uploader_Upload (recording env) u bucket key body)
          (Uploader_Upload env u bucket key body).
Proof. unfold Uploader_Upload. follows_tac. Qed.

#[local] Hint Resolve follows_Uploader_Upload : follows.

Lemma follows_UploadLargeObject (bucketName objectKey : string) (largeObject : bytes) :
  follows (UploadLargeObject (recording env) bucketName objectKey largeObject)
          (UploadLargeObject env bucketName objectKey largeObject).
Proof. unfold UploadLargeObject, manager_NewUploader. follows_tac. Qed.

(** *** What the record of an upload shows *)

Lemma exchange_request (i j : Input) (r : Output i + error) (a : Output j + error) :
  exchange i r = exchange j a -> i = j.
Proof. intros H. exact (f_equal (@projT1 _ _) H). Qed.

Lemma upload_parts_recorded (bucket key : string) (uploadId : nat)
    (order : list (Z * bytes)) (completed : list CompletedPart) st st'
    (r : list CompletedPart + error) :
  upload_parts (recording env) bucket key uploadId order completed st = Some (r, st') ->
  svc st' = svc st /\
  exists trace,
    (world st').2 = (world st).2 ++ trace /\
    (forall x, x ∈ trace ->
       exists n data a,
         x = exchange (UploadPartInput bucket key uploadId n data) a /\ (n, data) ∈ order) /\
    (forall result, r = inl result ->
       exists new,
         result = completed ++ new /\
         PartNumber <$> new = order.*1 /\
         forall c, c ∈ new ->
           exists data,
             exchange (UploadPartInput bucket key uploadId (PartNumber c) data)
               (inl (Part_ETag c)) ∈ trace).
Proof.
  revert completed st. induction order as [|[n data] rest IH]; intros completed st H.
  - injection H as <- <-. split; [done|]. exists []. rewrite app_nil_r.
    split; [done|]. split.
    + intros x Hx. by apply elem_of_nil in Hx.
    + intros result [= <-]. exists []. rewrite app_nil_r. split; [done|]. split; [done|].
      intros c Hc. by apply elem_of_nil in Hc.
  - cbn [upload_parts] in H. apply bind_inv in H as (a & st1 & Hinv & H).
    apply invoke_recorded in Hinv as [Hsvc1 Htr1].
    destruct a as [etag|err].
    + apply IH in H as (Hsvc & trace & Htr & Hall & Hres).
      split; [by rewrite Hsvc|].
      exists (exchange (UploadPartInput bucket key uploadId n data) (inl etag) :: trace).
      split; [by rewrite Htr, Htr1, <- app_assoc|]. split.
      * intros x Hx. apply elem_of_cons in Hx as [->|Hx].
        -- exists n, data, (inl etag). split; [done|]. by left.
        -- destruct (Hall x Hx) as (n' & data' & a' & -> & Hin).
           exists n', data', a'. split; [done|]. by right.
      * intros result ->. destruct (Hres _ eq_refl) as (new & Heq & Hnum & Hc).
        exists ({| PartNumber := n; Part_ETag := etag |} :: new).
        split; [by rewrite Heq, <- app_assoc|]. split; [cbn; by rewrite Hnum|].
        intros c Hin. apply elem_of_cons in Hin as [->|Hin].
        -- exists data. by left.
        -- destruct (Hc c Hin) as [data' Hd]. exists data'. by right.
    + injection H as <- <-. split; [done|].
      exists [exchange (UploadPartInput bucket key uploadId n data) (inr err)].
      split; [done|]. split.
      * intros x Hx. apply list_elem_of_singleton in Hx as ->.
        exists n, data, (inr err). split; [done|]. by left.
      * intros result [=].
Qed.

Lemma abort_upload_recorded (bucket key : string) (uploadId : nat) st st' (u : unit) :
  abort_upload (recording env) bucket key uploadId st = Some (u, st') ->
  svc st' = svc st /\
  exists a, (world st').2
            = (world st).2 ++ [exchange (AbortMultipartUploadInput bucket key uploadId) a].
Proof.
  intros H. unfold abort_upload in H. apply bind_inv in H as (a & st1 & Hinv & H).
  apply invoke_recorded in Hinv as [Hsvc Htr].
  destruct a as [?|err]; injection H as _ <-; (split; [done|]); by eexists.
Qed.

(** The parts in any completion order are the slices of the source. *)
Lemma completion_order_slices (choices : list nat) (partSize : Z) (source : bytes)
    (n : Z) (data : bytes) :
  1 <= partSize ->
  (n, data) ∈ completion_order choices (number_parts 1 (split_parts partSize source)) ->
  exists i : nat,
    n = Z.of_nat i + 1 /\
    (i * Z.to_nat partSize < length source)%nat /\
    data = take (Z.to_nat partSize) (drop (i * Z.to_nat partSize) source).
Proof.
  intros Hp Hin. rewrite completion_order_Permutation in Hin.
  assert (forall (parts : list bytes) (k : Z),
            (n, data) ∈ number_parts k parts ->
            exists i : nat, n = k + Z.of_nat i /\ parts !! i = Some data) as Hnum.
  { induction parts as [|p parts IH]; intros k H; cbn in H.
    - by apply elem_of_nil in H.
    - apply elem_of_cons in H as [[= -> ->]|H].
      + exists 0%nat. split; [lia|done].
      + apply IH in H as (i & -> & Hi). exists (S i). split; [lia|done]. }
  apply Hnum in Hin as (i & -> & Hi). exists i. split; [lia|].
  rewrite split_parts_lookup in Hi by done. case_decide; [|done].
  injection Hi as <-. done.
Qed.

(** The number of parts of a source. *)
Lemma split_parts_count (partSize : Z) (source : bytes) (i : nat) :
  1 <= partSize ->
  (i < length (split_parts partSize source))%nat
  <-> (i * Z.to_nat partSize < length source)%nat.
Proof.
  intros Hp. rewrite <- lookup_lt_is_Some, split_parts_lookup by done.
  case_decide as Hi; split; intros Hs; done.
Qed.

Lemma Upload_recorded (partSize : Z) (bucket key : string) (source : bytes) st st'
    (err : option error) :
  1 <= partSize ->
  Uploader_Upload (recording env) {| PartSize := partSize |} bucket key source st
  = Some (err, st') ->
  exists trace,
    (world st').2 = (world st).2 ++ trace /\
    (forall b k id n data r,
       exchange (UploadPartInput b k id n data) r ∈ trace ->
       b = bucket /\ k = key /\
       exchange (CreateMultipartUploadInput bucket key) (inl id) ∈ trace /\
       exists i : nat,
         n = Z.of_nat i + 1 /\
         (i * Z.to_nat partSize < length source)%nat /\
         data = take (Z.to_nat partSize) (drop (i * Z.to_nat partSize) source)) /\
    (forall b k id parts r,
       exchange (CompleteMultipartUploadInput b k id parts) r ∈ trace ->
       b = bucket /\ k = key /\
       (exists count : nat,
          PartNumber <$> parts = seqZ 1 (Z.of_nat count) /\
          forall i : nat,
            (i < count)%nat <-> (i * Z.to_nat partSize < length source)%nat) /\
       forall c, c ∈ parts ->
         exists data,
           exchange (UploadPartInput bucket key id (PartNumber c) data)
             (inl (Part_ETag c)) ∈ trace) /\
    (err = None ->
     exists id parts,
       last trace
       = Some (exchange (CompleteMultipartUploadInput bucket key id parts) (inl tt))).
Proof.
  intros Hp H. unfold Uploader_Upload in H. cbv zeta in H. cbn [PartSize] in H.
  apply bind_inv in H as (s & st0 & Hinv & H).
  apply invoke_recorded in Hinv as [Hsvc0 Htr0].
  destruct s as [uploadId|e].
  2:{ injection H as <- <-. eexists. split; [exact Htr0|].
      split; [|split; [|done]].
      - intros b k id n data r Hx. apply list_elem_of_singleton in Hx.
        apply exchange_request in Hx. discriminate Hx.
      - intros b k id parts r Hx. apply list_elem_of_singleton in Hx.
        apply exchange_request in Hx. discriminate Hx. }
  apply bind_inv in H as (choices & st0' & Hch & H).
  unfold in_world in Hch. injection Hch as <- <-.
  apply bind_inv in H as (r & st1 & Hparts & H).
  apply upload_parts_recorded in Hparts as (Hsvc1 & sent & Htr1 & Hall & Hres).
  cbn [world svc] in Htr1, Hsvc1.
  set (create := exchange (CreateMultipartUploadInput bucket key) (inl uploadId)) in *.
  assert (forall b k id n data a (rest : list Exchange),
            exchange (UploadPartInput b k id n data) a ∈ create :: sent ++ rest ->
            UploadPartInput b k id n data ∉ projT1 <$> rest ->
            b = bucket /\ k = key /\
            exchange (CreateMultipartUploadInput bucket key) (inl id)
            ∈ create :: sent ++ rest /\
            exists i : nat,
              n = Z.of_nat i + 1 /\
              (i * Z.to_nat partSize < length source)%nat /\
              data = take (Z.to_nat partSize) (drop (i * Z.to_nat partSize) source))
    as Hpart.
  { intros b k id n data a rest Hx Hrest.
    apply elem_of_cons in Hx as [Hx|Hx];
      [apply exchange_request in Hx; discriminate Hx|].
    apply elem_of_app in Hx as [Hx|Hx].
    - destruct (Hall _ Hx) as (n' & data' & a' & Heq & Hin).
      apply exchange_request in Heq. injection Heq as -> -> -> -> ->.
      split; [done|]. split; [done|]. split; [by left|].
      by apply (completion_order_slices (completion_choices env (world st0).1)).
    - exfalso. apply Hrest. apply list_elem_of_fmap.
      by exists (exchange (UploadPartInput b k id n data) a). }
  destruct r as [completed|e].
  2:{ apply bind_inv in H as ([] & st2 & Habort & H). injection H as <- <-.
      apply abort_upload_recorded in Habort as (_ & a & Htr2).
      exists (create :: sent ++ [exchange (AbortMultipartUploadInput bucket key uploadId) a]).
      split.
      { rewrite Htr2, Htr1, Htr0. by rewrite <- !app_assoc. }
      split; [|split; [|done]].
      - intros b k id n data r Hx. apply (Hpart _ _ _ _ _ _ _ Hx).
        intros Hj. apply list_elem_of_singleton in Hj. discriminate Hj.
      - intros b k id parts r Hx.
        apply elem_of_cons in Hx as [Hx|Hx];
          [apply exchange_request in Hx; discriminate Hx|].
        apply elem_of_app in Hx as [Hx|Hx].
        + destruct (Hall _ Hx) as (n' & data' & a' & Heq & _).
          apply exchange_request in Heq. discriminate Heq.
        + apply list_elem_of_singleton in Hx. apply exchange_request in Hx.
          discriminate Hx. }
  destruct (Hres _ eq_refl) as (new & Heq & Hnum & Hetag). cbn [app] in Heq. subst new.
  assert (exists count : nat,
            PartNumber <$> manifest completed = seqZ 1 (Z.of_nat count) /\
            forall i : nat,
              (i < count)%nat <-> (i * Z.to_nat partSize < length source)%nat)
    as Hcount.
  { exists (length (split_parts partSize source)). split.
    - apply manifest_ascending. rewrite Hnum, completion_order_Permutation.
      by rewrite number_parts_numbers.
    - intros i. by apply split_parts_count. }
  assert (forall c (rest : list Exchange),
            c ∈ manifest completed ->
            exists data,
              exchange (UploadPartInput bucket key uploadId (PartNumber c) data)
                (inl (Part_ETag c)) ∈ create :: sent ++ rest)
    as Hlisted.
  { intros c rest Hc. rewrite manifest_Permutation in Hc.
    destruct (Hetag c Hc) as [data Hd]. exists data.
    right. apply elem_of_app. by left. }
  apply bind_inv in H as (c & st2 & Hinv & H).
  apply invoke_recorded in Hinv as [Hsvc2 Htr2].
  destruct c as [[]|e].
  - injection H as <- <-.
    exists (create :: sent
              ++ [exchange (CompleteMultipartUploadInput bucket key uploadId
                              (manifest completed)) (inl tt)]).
    split.
    { rewrite Htr2, Htr1, Htr0. by rewrite <- !app_assoc. }
    split; [|split].
    + intros b k id n data r Hx. apply (Hpart _ _ _ _ _ _ _ Hx).
      intros Hj. apply list_elem_of_singleton in Hj. discriminate Hj.
    + intros b k id parts r Hx.
      assert (b = bucket /\ k = key /\ id = uploadId /\ parts = manifest completed)
        as (-> & -> & -> & ->).
      { apply elem_of_cons in Hx as [Hx|Hx];
          [apply exchange_request in Hx; discriminate Hx|].
        apply elem_of_app in Hx as [Hx|Hx].
        - destruct (Hall _ Hx) as (n' & data' & a' & Heq & _).
          apply exchange_request in Heq. discriminate Heq.
        - apply list_elem_of_singleton in Hx. apply exchange_request in Hx.
          by injection Hx as -> -> -> ->. }
      split; [done|]. split; [done|]. split; [done|].
      intros c Hc. by apply Hlisted.
    + intros _. exists uploadId, (manifest completed).
      by rewrite app_comm_cons, last_snoc.
  - apply bind_inv in H as ([] & st3 & Habort & H). injection H as <- <-.
    apply abort_upload_recorded in Habort as (_ & a & Htr3).
    exists (create :: sent
              ++ [exchange (CompleteMultipartUploadInput bucket key uploadId
                              (manifest completed)) (inr e);
                  exchange (AbortMultipartUploadInput bucket key uploadId) a]).
    split.
    { rewrite Htr3, Htr2, Htr1, Htr0. by rewrite <- !app_assoc. }
    split; [|split; [|done]].
    + intros b k id n data r Hx. apply (Hpart _ _ _ _ _ _ _ Hx).
      intros Hj. apply elem_of_cons in Hj as [Hj|Hj]; [discriminate Hj|].
      apply list_elem_of_singleton in Hj. discriminate Hj.
    + intros b k id parts r Hx.
      assert (b = bucket /\ k = key /\ id = uploadId /\ parts = manifest completed)
        as (-> & -> & -> & ->).
      { apply elem_of_cons in Hx as [Hx|Hx];
          [apply exchange_request in Hx; discriminate Hx|].
        apply elem_of_app in Hx as [Hx|Hx].
        - destruct (Hall _ Hx) as (n' & data' & a' & Heq & _).
          apply exchange_request in Heq. discriminate Heq.
        - apply elem_of_cons in Hx as [Hx|Hx].
          + apply exchange_request in Hx. by injection Hx as -> -> -> ->.
          + apply list_elem_of_singleton in Hx. apply exchange_request in Hx.
            discriminate Hx. }
      split; [done|]. split; [done|]. split; [done|].
      intros c Hc. by apply Hlisted.
Qed.

End Recorded.

(** C7. A large upload does over a recording environment what it does
    over the environment itself, and leaves this record of requests,
    whatever the client answers and whatever order the parts complete in:
    each part
    that is sent goes to the bucket, the key and the session of the upload
    and carries, as part [i + 1], the bytes of the source from
    [i * 10 MiB] on, 10 MiB of them but for the last part; a completion
    request lists the part numbers [1 .. n] of all the parts in ascending
    order, each with the checksum that was answered to that part; and an
    upload that returns nil has ended with a completion request that was
    accepted.  The part size is the one the facade sets, whatever the
    manager starts from. *)
Theorem UploadLargeObject_parts_and_manifest
    (W : Type) (env : Env W) (bucketName objectKey : string) (largeObject : bytes)
    (options : s3_Options) (st : State (W * list Exchange)) :
  s3Client (svc st) = Some options ->
  let size := Z.to_nat (10 * 1024 * 1024) in
  exists err st' trace,
    UploadLargeObject (recording env) bucketName objectKey largeObject st
    = Some (err, st') /\
    UploadLargeObject env bucketName objectKey largeObject (forget st)
    = Some (err, forget st') /\
    (world st').2 = (world st).2 ++ trace /\
    (forall b k id n data r,
       exchange (UploadPartInput b k id n data) r ∈ trace ->
       b = bucketName /\ k = objectKey /\
       exchange (CreateMultipartUploadInput bucketName objectKey) (inl id) ∈ trace /\
       exists i : nat,
         n = Z.of_nat i + 1 /\
         (i * size < length largeObject)%nat /\
         data = take size (drop (i * size) largeObject)) /\
    (forall b k id parts r,
       exchange (CompleteMultipartUploadInput b k id parts) r ∈ trace ->
       b = bucketName /\ k = objectKey /\
       (exists count : nat,
          PartNumber <$> parts = seqZ 1 (Z.of_nat count) /\
          forall i : nat, (i < count)%nat <-> (i * size < length largeObject)%nat) /\
       forall c, c ∈ parts ->
         exists data,
           exchange (UploadPartInput bucketName objectKey id (PartNumber c) data)
             (inl (Part_ETag c)) ∈ trace) /\
    (err = None ->
     exists id parts,
       last trace
       = Some (exchange (CompleteMultipartUploadInput bucketName objectKey id parts)
                 (inl tt))).
Proof.
  intros Hc size.
  destruct (keeps_Uploader_Upload (recording env) {| PartSize := 10 * 1024 * 1024 |}
              bucketName objectKey largeObject st options Hc) as (err & st1 & Hrun & _).
  pose proof (UploadLargeObject_is_Upload (recording env) bucketName objectKey
                largeObject st) as Hup.
  rewrite Hrun in Hup. destruct Hup as (st' & Hrun' & Hw & _).
  apply Upload_recorded in Hrun as (trace & Htrace & Hparts & Hcomplete & Hlast); [|lia].
  exists err, st', trace. rewrite Hw.
  split; [exact Hrun'|]. split; [by apply follows_UploadLargeObject|].
  split; [exact Htrace|]. split; [exact Hparts|].
  split; [exact Hcomplete|exact Hlast].
Qed.

(** ** The facade over the in-memory store *)

Module MemS3Facts.
Import MemS3.

Lemma with_faults_same (st : Store) : with_faults (faults st) st = st.
Proof. by destruct st. Qed.

(** A request other than [GetObject] that is not lost is served as it is. *)
Lemma send_delivered (i : Input) (options : s3_Options) (st : Store) :
  (forall n e out, break_body n e i out = out) ->
  refuses (faults st) = false ->
  send i options st = serve i options (next st).
Proof.
  intros Hplain Hd. unfold send, next.
  destruct (faults st) as [|[|err|n err] later] eqn:Hf; cbn in *; try done.
  - rewrite <- Hf. by rewrite with_faults_same.
  - destruct (serve i options (with_faults later st)) as [[out|e] st'];
      by rewrite ?Hplain.
Qed.

Lemma send_refused (i : Input) (options : s3_Options) (st : Store) :
  refuses (faults st) = true ->
  exists err, send i options st = (inr err, next st).
Proof.
  intros Hd. unfold send, next.
  destruct (faults st) as [|[|err|n err] later]; cbn in *; try done. eauto.
Qed.

Lemma bucket_of_next (options : s3_Options) (operation bucket : string) (st : Store) :
  bucket_of options operation bucket (next st) = bucket_of options operation bucket st.
Proof. reflexivity. Qed.

Lemma bucket_of_owned (options : s3_Options) (operation bucket : string) (st : Store)
    (d : BucketData) :
  buckets st !! bucket = Some d ->
  bucket_owner d = AccessKeyId options ->
  bucket_of options operation bucket st = inl d.
Proof. intros H Ho. unfold bucket_of. rewrite H. by rewrite decide_True. Qed.

(** *** Listing *)

Lemma listing_Permutation (d : BucketData) :
  listing d ≡ₚ object_of <$> map_to_list (bucket_objects d).
Proof. apply merge_sort_Permutation. Qed.

Lemma listing_keys (d : BucketData) :
  Object_Key <$> listing d ≡ₚ (map_to_list (bucket_objects d)).*1.
Proof.
  rewrite listing_Permutation, <- list_fmap_compose.
  by erewrite list_fmap_ext.
Qed.

Lemma listing_NoDup (d : BucketData) : NoDup (Object_Key <$> listing d).
Proof. rewrite listing_keys. apply NoDup_fst_map_to_list. Qed.

Lemma listing_complete (d : BucketData) (key : string) (data : bytes) :
  bucket_objects d !! key = Some data -> object_of (key, data) ∈ listing d.
Proof.
  intros H. rewrite listing_Permutation. apply list_elem_of_fmap. exists (key, data).
  split; [done|]. by apply elem_of_map_to_list.
Qed.

Lemma listing_sound (d : BucketData) (o : Object) :
  o ∈ listing d -> is_Some (bucket_objects d !! Object_Key o).
Proof.
  rewrite listing_Permutation. intros [[key data] [-> H]]%list_elem_of_fmap.
  apply elem_of_map_to_list in H. by exists data.
Qed.

(** C1, as the code has it.  On a bucket the caller owns, a request that
    is not lost makes [ListObjects] return the first page of the listing:
    at most [max_keys] objects, none twice, each one in the bucket; it is
    the whole listing when the bucket holds no more than one page. *)
Theorem ListObjects_returns_first_page
    (bucketName : string) (options : s3_Options) (st : State Store) (d : BucketData) :
  s3Client (svc st) = Some options ->
  bucket_of options "ListObjectsV2" bucketName (world st) = inl d ->
  refuses (faults (world st)) = false ->
  exists st',
    ListObjects env bucketName st
    = Some ((take (max_keys (world st)) (listing d), None), st') /\
    NoDup (Object_Key <$> take (max_keys (world st)) (listing d)) /\
    (forall o, o ∈ take (max_keys (world st)) (listing d) ->
               is_Some (bucket_objects d !! Object_Key o)) /\
    ((length (listing d) <= max_keys (world st))%nat ->
     take (max_keys (world st)) (listing d) = listing d /\
     forall key data, bucket_objects d !! key = Some data ->
                      object_of (key, data) ∈ take (max_keys (world st)) (listing d)).
Proof.
  intros Hc Hb Hd.
  assert (answer env (ListObjectsV2Input bucketName None) options st
          = inl (page (max_keys (world st)) None (listing d))) as Hr.
  { unfold answer. cbn [s3_invoke env]. rewrite send_delivered by done.
    cbn [serve]. unfold list_objects_v2. rewrite bucket_of_next, Hb. done. }
  eexists. split; [by rewrite (ListObjects_single_request env _ options _ _ Hc Hr)|].
  split; [|split].
  - rewrite fmap_take. eapply sublist_NoDup; [apply listing_NoDup|apply sublist_take].
  - intros o Ho. apply listing_sound. by eapply subseteq_take.
  - intros Hlen. rewrite take_ge by done. split; [done|]. apply listing_complete.
Qed.

(** *** Deleting a bucket *)

(** C6. Deleting a bucket that still holds an object fails: the request
    comes back with an error, which is the service's [BucketNotEmpty]
    whenever the request reached it and the caller owns the bucket, and
    buckets, objects, sessions and files are what they were. *)
Theorem DeleteBucket_non_empty_fails
    (bucketName : string) (options : s3_Options) (st : State Store) (d : BucketData) :
  s3Client (svc st) = Some options ->
  buckets (world st) !! bucketName = Some d ->
  bucket_objects d <> ∅ ->
  exists err st',
    DeleteBucket env bucketName st = Some (Some err, st') /\
    buckets (world st') = buckets (world st) /\
    sessions (world st') = sessions (world st) /\
    files (world st') = files (world st) /\
    (refuses (faults (world st)) = false ->
     bucket_owner d = AccessKeyId options ->
     errors_As_APIError err
     = Some (smithy_GenericAPIError "BucketNotEmpty"
               "The bucket you tried to delete is not empty")).
Proof.
  intros Hc Hb Hne.
  destruct (DeleteBucket_single_request env bucketName options st Hc) as [st' [Hrun Hw]].
  unfold answer, after in Hrun, Hw. cbn [world s3_invoke env] in Hrun, Hw.
  destruct (refuses (faults (world st))) eqn:Hd.
  - destruct (send_refused (DeleteBucketInput bucketName) options (world st) Hd)
      as [err Hi].
    rewrite Hi in Hrun, Hw. cbn in Hrun, Hw.
    exists err, st'. rewrite Hw. by repeat split.
  - rewrite send_delivered in Hrun, Hw by done.
    cbn [serve] in Hrun, Hw. unfold delete_bucket, bucket_of in Hrun, Hw.
    cbn [buckets next with_faults] in Hrun, Hw. rewrite Hb in Hrun, Hw.
    destruct (decide (bucket_owner d = AccessKeyId options)) as [Ho|Ho].
    + rewrite decide_False in Hrun, Hw by done. cbn in Hrun, Hw.
      eexists _, st'. rewrite Hw. by repeat split.
    + cbn in Hrun, Hw. eexists _, st'. rewrite Hw. by repeat split.
Qed.

(** *** What a request does to the store *)

(** Either the request is lost, or the service handles it and the answer
    comes back, its body damaged if the fault says so. *)
Lemma send_cases (i : Input) (options : s3_Options) (st : Store) :
  (refuses (faults st) = true /\ exists err, send i options st = (inr err, next st)) \/
  (refuses (faults st) = false /\
   exists r, send i options st = (r, (serve i options (next st)).2) /\
     (forall out, (serve i options (next st)).1 = inl out ->
        r = inl out \/
        exists n err, hd Deliver (faults st) = BreakBody n err /\
                      r = inl (break_body n err i out)) /\
     (forall err, (serve i options (next st)).1 = inr err -> r = inr err)).
Proof.
  destruct (refuses (faults st)) eqn:Hd.
  - left. split; [done|]. by apply send_refused.
  - right. split; [done|]. unfold send, next.
    destruct (faults st) as [|[|err|n err] later] eqn:Hf; cbn in Hd |- *; try done.
    + rewrite <- Hf, with_faults_same.
      destruct (serve i options st) as [[out|e] st']; cbn;
        eexists; (split; [done|]); split; intros ? [= <-]; eauto.
    + destruct (serve i options (with_faults later st)) as [[out|e] st']; cbn;
        eexists; (split; [done|]); split; intros ? [= <-]; eauto.
    + destruct (serve i options (with_faults later st)) as [[out|e] st']; cbn;
        eexists; (split; [done|]); split; intros ? [= <-]; eauto 10.
Qed.

(** Only a completed upload touches the buckets among the requests of a
    transfer. *)
Lemma serve_create (options : s3_Options) (bucket key : string) (st : Store) :
  let r := create_multipart_upload options bucket key st in
  buckets r.2 = buckets st /\ faults r.2 = faults st /\ files r.2 = files st /\
  match r.1 with
  | inl uploadId =>
      uploadId = length (sessions st) /\
      sessions r.2 = sessions st ++ [{| session_bucket := bucket; session_key := key;
                                        session_parts := ∅; session_state := Initiated |}]
  | inr _ => r.2 = st
  end.
Proof.
  unfold create_multipart_upload.
  destruct (bucket_of options "CreateMultipartUpload" bucket st); cbn; by repeat split.
Qed.

Lemma session_of_inl (operation bucket key : string) (uploadId : nat) (st : Store)
    (x : Session) :
  session_of operation bucket key uploadId st = inl x <->
  sessions st !! uploadId = Some x /\ session_bucket x = bucket /\ session_key x = key.
Proof.
  unfold session_of. destruct (sessions st !! uploadId) as [y|].
  - case_decide as Hd; split.
    + by intros [= ->].
    + by intros [[= ->] _].
    + done.
    + intros [[= ->] ?]. by destruct Hd.
  - split; [done|]. by intros [? _].
Qed.

Lemma serve_upload_part (options : s3_Options) (bucket key : string) (uploadId : nat)
    (n : Z) (data : bytes) (st : Store) :
  let r := upload_part options bucket key uploadId n data st in
  buckets r.2 = buckets st /\ faults r.2 = faults st /\ files r.2 = files st /\
  match r.1 with
  | inl etag =>
      etag = etag_of data /\
      exists x, session_of "UploadPart" bucket key uploadId st = inl x /\ active x = true /\
                sessions r.2 = <[uploadId := with_state PartsUploading
                                               (<[n := data]> (session_parts x)) x]>
                                 (sessions st)
  | inr _ => r.2 = st
  end.
Proof.
  unfold upload_part.
  destruct (session_of "UploadPart" bucket key uploadId st) as [x|e] eqn:Hs; cbn;
    [|by repeat split].
  destruct (active x) eqn:Ha; cbn; repeat split; eauto.
Qed.

Lemma serve_upload_part_active (options : s3_Options) (bucket key : string)
    (uploadId : nat) (n : Z) (data : bytes) (st : Store) (parts : gmap Z bytes) :
  session_at st uploadId bucket key parts ->
  (upload_part options bucket key uploadId n data st).1 = inl (etag_of data) /\
  session_at (upload_part options bucket key uploadId n data st).2 uploadId bucket key
    (<[n := data]> parts).
Proof.
  intros (x & Hx & Hb & Hk & Ha & Hp). unfold upload_part.
  rewrite (proj2 (session_of_inl "UploadPart" bucket key uploadId st x)) by done.
  rewrite Ha. cbn. split; [done|].
  exists (with_state PartsUploading (<[n := data]> (session_parts x)) x).
  split; [|by rewrite <- Hp].
  cbn. apply list_lookup_insert_eq. by eapply lookup_lt_Some.
Qed.

Lemma serve_complete (options : s3_Options) (bucket key : string) (uploadId : nat)
    (parts : list CompletedPart) (st : Store) :
  let r := complete_multipart_upload options bucket key uploadId parts st in
  faults r.2 = faults st /\ files r.2 = files st /\
  match r.1 with
  | inl _ =>
      exists x data d,
        session_of "CompleteMultipartUpload" bucket key uploadId st = inl x /\
        active x = true /\
        assemble (session_parts x) parts = Some data /\
        bucket_of options "CompleteMultipartUpload" bucket st = inl d /\
        buckets r.2 = <[bucket := with_objects (<[key := data]> (bucket_objects d)) d]>
                        (buckets st)
  | inr _ => r.2 = st
  end.
Proof.
  unfold complete_multipart_upload.
  destruct (session_of "CompleteMultipartUpload" bucket key uploadId st) as [x|e] eqn:Hs;
    cbn; [|done].
  destruct (active x) eqn:Ha; cbn; [|done].
  destruct (ascending 0 parts); cbn; [|done].
  destruct (assemble (session_parts x) parts) as [data|] eqn:Has; cbn; [|done].
  destruct (bucket_of options "CompleteMultipartUpload" bucket st) as [d|e] eqn:Hb;
    cbn; [|done].
  repeat split. by exists x, data, d.
Qed.

Lemma serve_abort (options : s3_Options) (bucket key : string) (uploadId : nat)
    (st : Store) :
  let r := abort_multipart_upload options bucket key uploadId st in
  buckets r.2 = buckets st /\ faults r.2 = faults st /\ files r.2 = files st.
Proof.
  unfold abort_multipart_upload.
  destruct (session_of "AbortMultipartUpload" bucket key uploadId st) as [x|e]; cbn;
    [|done].
  by destruct (session_state x).
Qed.

Lemma serve_abort_active (options : s3_Options) (bucket key : string) (uploadId : nat)
    (st : Store) (parts : gmap Z bytes) :
  session_at st uploadId bucket key parts ->
  let r := abort_multipart_upload options bucket key uploadId st in
  r.1 = inl tt /\
  exists x, sessions r.2 !! uploadId = Some x /\
            session_bucket x = bucket /\ session_key x = key /\
            session_state x = Aborted /\ session_parts x = ∅.
Proof.
  intros (x & Hx & Hb & Hk & Ha & Hp). unfold abort_multipart_upload.
  rewrite (proj2 (session_of_inl "AbortMultipartUpload" bucket key uploadId st x)) by done.
  assert (uploadId < length (sessions st))%nat by by eapply lookup_lt_Some.
  unfold active in Ha.
  destruct (session_state x); try discriminate; cbn;
    (split; [done|]); eexists; (split; [by apply list_lookup_insert_eq|done]).
Qed.

Lemma serve_get (options : s3_Options) (bucket key : string) (range : option (Z * Z))
    (st : Store) :
  let r := get_object options bucket key range st in
  r.2 = st /\
  match r.1 with
  | inl out =>
      exists d data,
        bucket_of options "GetObject" bucket st = inl d /\
        bucket_objects d !! key = Some data /\
        out = {| Body := {| stream_data := slice range data; stream_err := None |};
                 ObjectLength := Z.of_nat (length data) |}
  | inr _ => True
  end.
Proof.
  unfold get_object.
  destruct (bucket_of options "GetObject" bucket st) as [d|e] eqn:Hb; cbn; [|done].
  destruct (bucket_objects d !! key) as [data|] eqn:Hk; cbn; [|done].
  split; [done|]. by exists d, data.
Qed.

(** *** What the client sees of a transfer request *)

Lemma send_create (options : s3_Options) (bucket key : string) (st : Store) :
  let r := send (CreateMultipartUploadInput bucket key) options st in
  buckets r.2 = buckets st /\ files r.2 = files st /\ faults r.2 = tl (faults st) /\
  match r.1 with
  | inl uploadId =>
      uploadId = length (sessions st) /\ session_at r.2 uploadId bucket key ∅ /\
      refuses (faults st) = false
  | inr _ => sessions r.2 = sessions st
  end.
Proof.
  cbv zeta.
  destruct (send_cases (CreateMultipartUploadInput bucket key) options st)
    as [[Hd [e ->]]|[Hd [r [-> [Hl Hr]]]]]; [by repeat split|].
  cbn [serve fst snd] in *.
  destruct (serve_create options bucket key (next st)) as (Hb & Hf & Hfi & Hs).
  split; [exact Hb|]. split; [exact Hfi|]. split; [exact Hf|].
  destruct (create_multipart_upload options bucket key (next st)).1 as [uploadId|e]
    eqn:Hserve.
  - destruct Hs as [-> Hs].
    assert (r = inl (length (sessions (next st)))) as ->
      by by destruct (Hl _ Hserve) as [->|(n & err & _ & ->)].
    split; [done|]. split; [|done].
    exists {| session_bucket := bucket; session_key := key;
              session_parts := ∅; session_state := Initiated |}.
    split; [|done].
    etrans; [exact (f_equal (fun l => l !! length (sessions (next st))) Hs)|].
    by apply list_lookup_middle.
  - rewrite (Hr _ Hserve). exact (f_equal sessions Hs).
Qed.

Lemma send_create_owned (options : s3_Options) (bucket key : string) (st : Store)
    (d : BucketData) :
  bucket_of options "CreateMultipartUpload" bucket st = inl d ->
  refuses (faults st) = false ->
  (send (CreateMultipartUploadInput bucket key) options st).1 = inl (length (sessions st)).
Proof.
  intros Hb Hd.
  destruct (send_cases (CreateMultipartUploadInput bucket key) options st)
    as [[Hd' _]|[_ [r [-> [Hl _]]]]]; [congruence|].
  cbn [serve fst snd] in *.
  assert ((create_multipart_upload options bucket key (next st)).1
          = inl (length (sessions st))) as Hserve.
  { unfold create_multipart_upload. by rewrite bucket_of_next, Hb. }
  by destruct (Hl _ Hserve) as [->|(n & err & _ & ->)].
Qed.

Lemma send_upload_part (options : s3_Options) (bucket key : string) (uploadId : nat)
    (n : Z) (data : bytes) (st : Store) (parts : gmap Z bytes) :
  session_at st uploadId bucket key parts ->
  let r := send (UploadPartInput bucket key uploadId n data) options st in
  buckets r.2 = buckets st /\ files r.2 = files st /\ faults r.2 = tl (faults st) /\
  ((refuses (faults st) = true /\ (exists e, r.1 = inr e) /\
    session_at r.2 uploadId bucket key parts) \/
   (refuses (faults st) = false /\ r.1 = inl (etag_of data) /\
    session_at r.2 uploadId bucket key (<[n := data]> parts))).
Proof.
  intros Hs. cbv zeta.
  destruct (send_cases (UploadPartInput bucket key uploadId n data) options st)
    as [[Hd [e ->]]|[Hd [r [-> [Hl _]]]]].
  - repeat split; try done. left. eauto.
  - cbn [serve fst snd] in *.
    destruct (serve_upload_part options bucket key uploadId n data (next st))
      as (Hb & Hf & Hfi & _).
    destruct (serve_upload_part_active options bucket key uploadId n data (next st) parts)
      as [Hserve Hs']; [done|].
    split; [exact Hb|]. split; [exact Hfi|]. split; [exact Hf|].
    right. split; [done|]. split; [|exact Hs'].
    by destruct (Hl _ Hserve) as [->|(n0 & err & _ & ->)].
Qed.

Lemma send_abort (options : s3_Options) (bucket key : string) (uploadId : nat)
    (st : Store) :
  let r := send (AbortMultipartUploadInput bucket key uploadId) options st in
  buckets r.2 = buckets st /\ files r.2 = files st /\ faults r.2 = tl (faults st).
Proof.
  cbv zeta.
  destruct (send_cases (AbortMultipartUploadInput bucket key uploadId) options st)
    as [[Hd [e ->]]|[Hd [r [-> _]]]]; [done|].
  cbn [serve fst snd] in *.
  destruct (serve_abort options bucket key uploadId (next st)) as (Hb & Hf & Hfi).
  split; [exact Hb|]. split; [exact Hfi|exact Hf].
Qed.

Lemma send_abort_active (options : s3_Options) (bucket key : string) (uploadId : nat)
    (st : Store) (parts : gmap Z bytes) :
  session_at st uploadId bucket key parts ->
  refuses (faults st) = false ->
  let r := send (AbortMultipartUploadInput bucket key uploadId) options st in
  r.1 = inl tt /\
  exists x, sessions r.2 !! uploadId = Some x /\
            session_bucket x = bucket /\ session_key x = key /\
            session_state x = Aborted /\ session_parts x = ∅.
Proof.
  intros Hs Hd. cbv zeta.
  destruct (send_cases (AbortMultipartUploadInput bucket key uploadId) options st)
    as [[Hd' _]|[_ [r [-> [Hl _]]]]]; [congruence|].
  cbn [serve fst snd] in *.
  destruct (serve_abort_active options bucket key uploadId (next st) parts)
    as [Hserve Hx]; [done|].
  split; [|exact Hx].
  by destruct (Hl _ Hserve) as [->|(n0 & err & _ & ->)].
Qed.

Lemma send_complete (options : s3_Options) (bucket key : string) (uploadId : nat)
    (parts : list CompletedPart) (st : Store) :
  let r := send (CompleteMultipartUploadInput bucket key uploadId parts) options st in
  files r.2 = files st /\ faults r.2 = tl (faults st) /\
  match r.1 with
  | inl _ =>
      exists x data d,
        sessions st !! uploadId = Some x /\
        assemble (session_parts x) parts = Some data /\
        bucket_of options "CompleteMultipartUpload" bucket st = inl d /\
        buckets r.2 = <[bucket := with_objects (<[key := data]> (bucket_objects d)) d]>
                        (buckets st)
  | inr _ => buckets r.2 = buckets st /\ sessions r.2 = sessions st
  end.
Proof.
  cbv zeta.
  destruct (send_cases (CompleteMultipartUploadInput bucket key uploadId parts) options st)
    as [[Hd [e ->]]|[Hd [r [-> [Hl Hr]]]]]; [done|].
  cbn [serve fst snd] in *.
  destruct (serve_complete options bucket key uploadId parts (next st)) as (Hf & Hfi & Hs).
  split; [exact Hfi|]. split; [exact Hf|].
  destruct (complete_multipart_upload options bucket key uploadId parts (next st)).1
    as [[]|e] eqn:Hserve.
  - destruct Hs as (x & data & d & Hx & _ & Ha & Hb & Hbs).
    apply session_of_inl in Hx as (Hx & _ & _).
    assert (r = inl tt) as -> by by destruct (Hl _ Hserve) as [->|(n0 & err & _ & ->)].
    by exists x, data, d.
  - rewrite (Hr _ Hserve). split; [exact (f_equal buckets Hs)|exact (f_equal sessions Hs)].
Qed.

Lemma send_get (options : s3_Options) (bucket key : string) (range : option (Z * Z))
    (st : Store) :
  let r := send (GetObjectInput bucket key range) options st in
  buckets r.2 = buckets st /\ sessions r.2 = sessions st /\ files r.2 = files st /\
  faults r.2 = tl (faults st) /\
  match r.1 with
  | inl out =>
      exists d data,
        bucket_of options "GetObject" bucket st = inl d /\
        bucket_objects d !! key = Some data /\
        ObjectLength out = Z.of_nat (length data) /\
        (stream_err (Body out) = None -> stream_data (Body out) = slice range data)
  | inr _ => True
  end.
Proof.
  cbv zeta.
  destruct (send_cases (GetObjectInput bucket key range) options st)
    as [[Hd [e ->]]|[Hd [r [-> [Hl Hr]]]]]; [done|].
  cbn [serve fst snd] in *.
  destruct (serve_get options bucket key range (next st)) as (Hw & Hs).
  split; [exact (f_equal buckets Hw)|]. split; [exact (f_equal sessions Hw)|].
  split; [exact (f_equal files Hw)|]. split; [exact (f_equal faults Hw)|].
  destruct (get_object options bucket key range (next st)).1 as [out|e] eqn:Hserve.
  - destruct Hs as (d & data & Hb & Hk & ->).
    destruct (Hl _ Hserve) as [->|(n0 & err & Hbreak & ->)]; exists d, data; by cbn.
  - by rewrite (Hr _ Hserve).
Qed.

(** Without faults, an object that is there is served whole. *)
Lemma send_get_present (options : s3_Options) (bucket key : string)
    (range : option (Z * Z)) (st : Store) (d : BucketData) (data : bytes) :
  faults st = [] ->
  bucket_of options "GetObject" bucket st = inl d ->
  bucket_objects d !! key = Some data ->
  send (GetObjectInput bucket key range) options st
  = (inl {| Body := {| stream_data := slice range data; stream_err := None |};
            ObjectLength := Z.of_nat (length data) |}, st).
Proof.
  intros Hf Hb Hk. unfold send. rewrite Hf. cbn [serve]. unfold get_object.
  by rewrite Hb, Hk.
Qed.

(** *** An upload, step by step *)

Lemma answer_send (i : Input) (options : s3_Options) (st : State Store) :
  answer env i options st = (send i options (world st)).1.
Proof. reflexivity. Qed.

Lemma after_send (i : Input) (options : s3_Options) (st : State Store) :
  world (after env i options st) = (send i options (world st)).2.
Proof. reflexivity. Qed.

Lemma store_parts_cons (parts : gmap Z bytes) (n : Z) (data : bytes)
    (order : list (Z * bytes)) :
  store_parts parts ((n, data) :: order) = store_parts (<[n := data]> parts) order.
Proof. reflexivity. Qed.

(** The parts loop keeps buckets and files, keeps the session open, and on
    success has stored every part it was given. *)
Lemma upload_parts_store (bucket key : string) (uploadId : nat)
    (order : list (Z * bytes)) (completed : list CompletedPart)
    (st st' : State Store) (r : list CompletedPart + error) (parts : gmap Z bytes) :
  upload_parts env bucket key uploadId order completed st = Some (r, st') ->
  session_at (world st) uploadId bucket key parts ->
  buckets (world st') = buckets (world st) /\
  files (world st') = files (world st) /\
  (exists parts', session_at (world st') uploadId bucket key parts') /\
  (forall result, r = inl result ->
     result = completed ++ (completed_part <$> order) /\
     session_at (world st') uploadId bucket key (store_parts parts order)).
Proof.
  revert completed st parts.
  induction order as [|[n data] rest IH]; intros completed st parts H Hs.
  - cbn in H. injection H as <- <-.
    split; [done|]. split; [done|]. split; [eauto|].
    intros result [= <-]. by rewrite app_nil_r.
  - cbn [upload_parts] in H. apply bind_inv in H as (r1 & st1 & Hinv & H).
    apply invoke_inv in Hinv as (options & Hc & -> & ->).
    rewrite answer_send in H.
    destruct (send_upload_part options bucket key uploadId n data (world st) parts Hs)
      as (Hb & Hfi & _ & [(_ & [e He] & Hs')|(_ & Hok & Hs')]).
    + rewrite He in H. injection H as <- <-.
      split; [done|]. split; [done|]. split; [eauto|]. by intros result [=].
    + rewrite Hok in H. apply (IH _ _ (<[n := data]> parts)) in H as (Hb' & Hfi' & Hex & Hr);
        [|exact Hs'].
      split; [by rewrite Hb'|]. split; [by rewrite Hfi'|]. split; [done|].
      intros result Hres. destruct (Hr result Hres) as [-> Hs2].
      split; [|done]. rewrite <- app_assoc. done.
Qed.

(** The parts loop fails at the first request that is lost. *)
Lemma upload_parts_lost (bucket key : string) (uploadId : nat)
    (order : list (Z * bytes)) (completed : list CompletedPart)
    (st : State Store) (options : s3_Options) (parts : gmap Z bytes)
    (m : nat) (err : error) (later : list Fault) :
  s3Client (svc st) = Some options ->
  session_at (world st) uploadId bucket key parts ->
  faults (world st) = replicate m Deliver ++ FailRequest err :: later ->
  (m < length order)%nat ->
  exists st' parts',
    upload_parts env bucket key uploadId order completed st = Some (inr err, st') /\
    svc st' = svc st /\
    buckets (world st') = buckets (world st) /\
    files (world st') = files (world st) /\
    session_at (world st') uploadId bucket key parts' /\
    faults (world st') = later.
Proof.
  revert order completed st parts.
  induction m as [|m IH]; intros order completed st parts Hc Hs Hf Hlen;
    destruct order as [|[n data] rest]; cbn [length] in Hlen; try lia;
    cbn [upload_parts]; unfold M_bind at 1; rewrite (invoke_eq env _ options) by done;
    destruct (send_upload_part options bucket key uploadId n data (world st) parts Hs)
      as (Hb & Hfi & Hfa & Hcases);
    rewrite Hf in Hcases, Hfa; cbn in Hcases, Hfa;
    destruct Hcases as [(Hd & [e He] & Hs')|(Hd & Hok & Hs')]; try done.
  - assert (e = err) as ->.
    { unfold send in He. rewrite Hf in He. cbn in He. by injection He. }
    exists (after env (UploadPartInput bucket key uploadId n data) options st), parts.
    split; [|by repeat split].
    rewrite answer_send.
    destruct (send (UploadPartInput bucket key uploadId n data) options (world st))
      as [r1 w1]. cbn [fst snd] in *. by subst r1.
  - destruct (IH rest (completed ++ [{| PartNumber := n; Part_ETag := etag_of data |}])
                (after env (UploadPartInput bucket key uploadId n data) options st)
                (<[n := data]> parts))
      as (st' & parts' & Hrun & Hsvc & Hb' & Hfi' & Hs2 & Hfa'); try done; [lia|].
    exists st', parts'. split.
    { rewrite answer_send. rewrite <- Hrun. clear IH Hrun.
      unfold after in *. cbn [s3_invoke env] in *.
      destruct (send (UploadPartInput bucket key uploadId n data) options (world st))
        as [r1 w1]. cbn [fst snd] in *. by subst r1. }
    repeat split; try done.
    + by rewrite Hb'.
    + by rewrite Hfi'.
Qed.

(** *** The object a completed upload stores *)

Lemma bucket_of_inl (options : s3_Options) (operation bucket : string) (st : Store)
    (d : BucketData) :
  bucket_of options operation bucket st = inl d <->
  buckets st !! bucket = Some d /\ bucket_owner d = AccessKeyId options.
Proof.
  unfold bucket_of. destruct (buckets st !! bucket) as [d'|].
  - case_decide as Hd; split.
    + by intros [= ->].
    + by intros [[= ->] _].
    + done.
    + intros [[= ->] ?]. by destruct Hd.
  - split; [done|]. by intros [? _].
Qed.

Lemma store_parts_notin (parts : gmap Z bytes) (order : list (Z * bytes)) (n : Z) :
  n ∉ order.*1 -> store_parts parts order !! n = parts !! n.
Proof.
  revert parts. induction order as [|[m data] rest IH]; intros parts Hn; [done|].
  rewrite store_parts_cons. cbn in Hn. apply not_elem_of_cons in Hn as [Hne Hn].
  rewrite IH by done. by rewrite lookup_insert_ne.
Qed.

Lemma store_parts_lookup (parts : gmap Z bytes) (order : list (Z * bytes))
    (n : Z) (data : bytes) :
  NoDup order.*1 -> (n, data) ∈ order -> store_parts parts order !! n = Some data.
Proof.
  revert parts. induction order as [|[m d] rest IH]; intros parts Hnd Hin.
  - by apply elem_of_nil in Hin.
  - rewrite store_parts_cons. cbn in Hnd. apply NoDup_cons in Hnd as [Hm Hnd].
    apply elem_of_cons in Hin as [[= -> ->]|Hin].
    + rewrite store_parts_notin by done. apply lookup_insert_eq.
    + by apply IH.
Qed.

Lemma assemble_parts (stored : gmap Z bytes) (m : list CompletedPart) (data : bytes) :
  assemble stored m = Some data ->
  exists parts, Forall2 (fun n part => stored !! n = Some part) (PartNumber <$> m) parts /\
                data = concat parts.
Proof.
  revert data. induction m as [|p rest IH]; intros data H; cbn in H.
  - injection H as <-. exists []. by split; [constructor|].
  - destruct (stored !! PartNumber p) as [part|] eqn:Hp; [|done].
    case_decide; [|done].
    destruct (assemble stored rest) as [tail|]; [|done].
    injection H as <-. destruct (IH tail eq_refl) as (parts & Hall & ->).
    exists (part :: parts). split; [|done]. by constructor.
Qed.

Lemma stored_parts_unique (stored : gmap Z bytes) (ns : list Z) (ps qs : list bytes) :
  Forall2 (fun n part => stored !! n = Some part) ns ps ->
  Forall2 (fun n part => stored !! n = Some part) ns qs ->
  ps = qs.
Proof.
  intros Hp. revert qs. induction Hp as [|n p ns ps Hn _ IH]; intros qs Hq.
  - by inversion Hq.
  - inversion Hq as [|? q ? qs' Hn' Hq']; subst. f_equal; [congruence|by apply IH].
Qed.

Lemma stored_numbered (stored : gmap Z bytes) (l : list (Z * bytes)) :
  (forall e, e ∈ l -> stored !! e.1 = Some e.2) ->
  Forall2 (fun n part => stored !! n = Some part) l.*1 l.*2.
Proof.
  induction l as [|e rest IH]; intros H; [constructor|].
  cbn. constructor.
  - apply H. by left.
  - apply IH. intros e' He'. apply H. by right.
Qed.

(** Whatever order the parts completed in, the parts the session holds,
    taken in the order of the manifest, are the source. *)
Lemma assemble_source (choices : list nat) (partSize : Z) (source data : bytes) :
  let order := completion_order choices (number_parts 1 (split_parts partSize source)) in
  assemble (store_parts ∅ order) (manifest (completed_part <$> order)) = Some data ->
  data = source.
Proof.
  intros order H.
  set (numbered := number_parts 1 (split_parts partSize source)) in *.
  assert (order ≡ₚ numbered) as Hperm by apply completion_order_Permutation.
  assert (PartNumber <$> manifest (completed_part <$> order) = numbered.*1) as Hnum.
  { unfold numbered. rewrite number_parts_numbers. apply manifest_ascending.
    rewrite <- list_fmap_compose.
    assert ((PartNumber ∘ completed_part) <$> order = order.*1) as ->
      by by apply list_fmap_ext.
    rewrite Hperm. unfold numbered. by rewrite number_parts_numbers. }
  apply assemble_parts in H as (parts & Hall & ->). rewrite Hnum in Hall.
  assert (parts = numbered.*2) as ->.
  { eapply stored_parts_unique; [exact Hall|]. apply stored_numbered.
    intros [n part] Hin. apply store_parts_lookup.
    - rewrite Hperm. unfold numbered. rewrite number_parts_numbers. apply NoDup_seqZ.
    - by rewrite Hperm. }
  unfold numbered. rewrite number_parts_data. apply split_parts_concat.
Qed.

Lemma create_step (options : s3_Options) (bucket key : string) (st : State Store)
    (uploadId : nat) :
  answer env (CreateMultipartUploadInput bucket key) options st = inl uploadId ->
  let st0 := after env (CreateMultipartUploadInput bucket key) options st in
  buckets (world st0) = buckets (world st) /\
  files (world st0) = files (world st) /\
  faults (world st0) = tl (faults (world st)) /\
  uploadId = length (sessions (world st)) /\
  session_at (world st0) uploadId bucket key ∅ /\
  refuses (faults (world st)) = false.
Proof.
  intros H. cbv zeta. rewrite after_send. rewrite answer_send in H.
  pose proof (send_create options bucket key (world st)) as F. cbv zeta in F.
  destruct (send (CreateMultipartUploadInput bucket key) options (world st)) as [r w].
  cbn [fst snd] in *. subst r. destruct F as (? & ? & ? & ? & ? & ?). by repeat split.
Qed.

Lemma complete_step (options : s3_Options) (bucket key : string) (uploadId : nat)
    (parts : list CompletedPart) (st : State Store) (u : unit) :
  answer env (CompleteMultipartUploadInput bucket key uploadId parts) options st = inl u ->
  let st' := after env (CompleteMultipartUploadInput bucket key uploadId parts) options st in
  exists x data d,
    sessions (world st) !! uploadId = Some x /\
    assemble (session_parts x) parts = Some data /\
    bucket_of options "CompleteMultipartUpload" bucket (world st) = inl d /\
    buckets (world st')
    = <[bucket := with_objects (<[key := data]> (bucket_objects d)) d]> (buckets (world st)) /\
    files (world st') = files (world st).
Proof.
  intros H. cbv zeta. rewrite after_send. rewrite answer_send in H.
  pose proof (send_complete options bucket key uploadId parts (world st)) as F.
  cbv zeta in F.
  destruct (send (CompleteMultipartUploadInput bucket key uploadId parts) options (world st))
    as [r w].
  cbn [fst snd] in *. subst r.
  destruct F as (Hfi & _ & x & data & d & Hx & Ha & Hb & Hbs). by exists x, data, d.
Qed.

(** An upload that returns nil has stored the source under the key, in a
    bucket of the caller, and has touched nothing else. *)
Lemma Upload_stores_source (u : Uploader) (bucket key : string) (source : bytes)
    (options : s3_Options) (st st' : State Store) :
  s3Client (svc st) = Some options ->
  Uploader_Upload env u bucket key source st = Some (None, st') ->
  exists d,
    buckets (world st) !! bucket = Some d /\
    bucket_owner d = AccessKeyId options /\
    buckets (world st')
    = <[bucket := with_objects (<[key := source]> (bucket_objects d)) d]>
        (buckets (world st)) /\
    files (world st') = files (world st) /\
    svc st' = svc st.
Proof.
  intros Hc H.
  apply (Upload_succeeded_inv env u bucket key source options) in H
    as (uploadId & st0 & completed & st1 & Hcreate & -> & Hparts & Hsvc & Hcomplete & ->);
    [|done].
  apply create_step in Hcreate as (Hb0 & Hf0 & _ & _ & Hs0 & _).
  eapply upload_parts_store in Hparts as (Hb1 & Hf1 & _ & Hres); [|exact Hs0].
  destruct (Hres completed eq_refl) as [-> (x & Hx & _ & _ & _ & Hparts)].
  apply complete_step in Hcomplete as (x' & data & d & Hx' & Has & Hd & Hb2 & Hf2).
  assert (x' = x) as -> by congruence. rewrite Hparts in Has. cbn [app] in Has.
  apply assemble_source in Has as ->.
  apply bucket_of_inl in Hd as [Hd Ho]. rewrite Hb1, Hb0 in Hd, Hb2.
  exists d. repeat split; try done. by rewrite Hf2, Hf1.
Qed.

(** *** An upload that loses a part *)

(** What a download answers depends on the buckets only. *)
Lemma get_object_buckets (options : s3_Options) (bucket key : string)
    (range : option (Z * Z)) (st1 st2 : Store) :
  buckets st1 = buckets st2 ->
  (get_object options bucket key range st1).1 = (get_object options bucket key range st2).1.
Proof.
  intros H. unfold get_object, bucket_of. rewrite H.
  destruct (buckets st2 !! bucket) as [d|]; [|done].
  case_decide; [|done]. by destruct (bucket_objects d !! key).
Qed.

Lemma abort_step (options : s3_Options) (bucket key : string) (uploadId : nat)
    (st : State Store) (parts : gmap Z bytes) :
  s3Client (svc st) = Some options ->
  session_at (world st) uploadId bucket key parts ->
  refuses (faults (world st)) = false ->
  exists st',
    abort_upload env bucket key uploadId st = Some (tt, st') /\
    svc st' = svc st /\
    buckets (world st') = buckets (world st) /\
    files (world st') = files (world st) /\
    exists x, sessions (world st') !! uploadId = Some x /\
              session_bucket x = bucket /\ session_key x = key /\
              session_state x = Aborted /\ session_parts x = ∅.
Proof.
  intros Hc Hs Hd. unfold abort_upload, M_bind.
  rewrite (invoke_eq env _ options) by done. rewrite answer_send.
  exists (after env (AbortMultipartUploadInput bucket key uploadId) options st).
  rewrite !after_send.
  destruct (send_abort_active options bucket key uploadId (world st) parts Hs Hd)
    as [Hr Hx].
  destruct (send_abort options bucket key uploadId (world st)) as (Hb & Hfi & _).
  unfold after. cbn [s3_invoke env svc world].
  destruct (send (AbortMultipartUploadInput bucket key uploadId) options (world st))
    as [r w].
  cbn [fst snd] in *. subst r. by repeat split.
Qed.

(** When the request of a part is lost, the upload returns that failure,
    leaves every bucket as it was and the session aborted. *)
(** An abort request that is lost leaves the session as it is. *)
Lemma abort_lost (options : s3_Options) (bucket key : string) (uploadId : nat)
    (st : State Store) (parts : gmap Z bytes) :
  s3Client (svc st) = Some options ->
  session_at (world st) uploadId bucket key parts ->
  refuses (faults (world st)) = true ->
  exists st',
    abort_upload env bucket key uploadId st = Some (tt, st') /\
    svc st' = svc st /\
    buckets (world st') = buckets (world st) /\
    files (world st') = files (world st) /\
    session_at (world st') uploadId bucket key parts.
Proof.
  intros Hc Hs Hd. unfold abort_upload, M_bind.
  rewrite (invoke_eq env _ options) by done. rewrite answer_send.
  destruct (send_refused (AbortMultipartUploadInput bucket key uploadId) options
              (world st) Hd) as [err Hi].
  unfold after. cbn [s3_invoke env svc world logged].
  rewrite Hi. cbn. eexists. by repeat split.
Qed.

Lemma Upload_part_lost (u : Uploader) (bucket key : string) (source : bytes)
    (options : s3_Options) (st : State Store) (d : BucketData)
    (m : nat) (err : error) (later : list Fault) :
  s3Client (svc st) = Some options ->
  bucket_of options "CreateMultipartUpload" bucket (world st) = inl d ->
  faults (world st) = replicate (S m) Deliver ++ FailRequest err :: later ->
  (m < length (split_parts (PartSize u) source))%nat ->
  exists st',
    Uploader_Upload env u bucket key source st = Some (Some err, st') /\
    svc st' = svc st /\
    buckets (world st') = buckets (world st) /\
    files (world st') = files (world st) /\
    exists x, sessions (world st') !! length (sessions (world st)) = Some x /\
              session_bucket x = bucket /\ session_key x = key /\
              if refuses later then active x = true
              else session_state x = Aborted /\ session_parts x = ∅.
Proof.
  intros Hc Hb Hf Hm.
  assert (answer env (CreateMultipartUploadInput bucket key) options st
          = inl (length (sessions (world st)))) as Hcreate.
  { apply (send_create_owned options bucket key (world st) d Hb). by rewrite Hf. }
  destruct (create_step options bucket key st _ Hcreate) as (Hb0 & Hf0 & Hfa0 & _ & Hs0 & _).
  rewrite Hf in Hfa0. cbn [replicate app tl] in Hfa0.
  unfold Uploader_Upload. cbv zeta. unfold M_bind at 1.
  rewrite (invoke_eq env _ options) by done. rewrite Hcreate.
  unfold M_bind at 1, in_world at 1.
  set (st0 := after env (CreateMultipartUploadInput bucket key) options st) in *.
  change {| svc := svc st0; world := world st0; logged := logged st0 |} with st0.
  set (order := completion_order (completion_choices env (world st0))
                  (number_parts 1 (split_parts (PartSize u) source))).
  destruct (upload_parts_lost bucket key (length (sessions (world st))) order [] st0
              options ∅ m err later)
    as (st1 & parts1 & Hrun & Hsvc1 & Hb1 & Hf1 & Hs1 & Hfa1);
    [done|exact Hs0|exact Hfa0| |].
  { unfold order. rewrite (Permutation_length (completion_order_Permutation _ _)).
    by rewrite length_number_parts. }
  unfold M_bind at 1. rewrite Hrun.
  destruct (refuses later) eqn:Hlater.
  - destruct (abort_lost options bucket key (length (sessions (world st))) st1 parts1)
      as (st2 & Habort & Hsvc2 & Hb2 & Hf2 & x & Hx & Hxb & Hxk & Hxa & _);
      [by rewrite Hsvc1|done|by rewrite Hfa1|].
    unfold M_bind at 1. rewrite Habort. cbn.
    exists st2. split; [done|]. split; [by rewrite Hsvc2, Hsvc1|].
    split; [by rewrite Hb2, Hb1|]. split; [by rewrite Hf2, Hf1|]. by exists x.
  - destruct (abort_step options bucket key (length (sessions (world st))) st1 parts1)
      as (st2 & Habort & Hsvc2 & Hb2 & Hf2 & Hx);
      [by rewrite Hsvc1|done|by rewrite Hfa1|].
    unfold M_bind at 1. rewrite Habort. cbn.
    exists st2. split; [done|]. split; [by rewrite Hsvc2, Hsvc1|].
    split; [by rewrite Hb2, Hb1|]. split; [by rewrite Hf2, Hf1|]. done.
Qed.

Lemma abort_upload_buckets (bucket key : string) (uploadId : nat)
    (st st' : State Store) (u : unit) :
  abort_upload env bucket key uploadId st = Some (u, st') ->
  buckets (world st') = buckets (world st).
Proof.
  intros H. unfold abort_upload in H. apply bind_inv in H as (r & st1 & Hinv & H).
  apply invoke_inv in Hinv as (options & Hc & -> & ->).
  destruct (send_abort options bucket key uploadId (world st)) as (Hb & _).
  destruct (answer env _ options st); cbn in H; injection H as _ <-; exact Hb.
Qed.

(** Whatever makes an upload fail, a failed upload leaves every bucket as
    it was. *)
Lemma Upload_failed_keeps_buckets (u : Uploader) (bucket key : string) (source : bytes)
    (st st' : State Store) (err : error) :
  Uploader_Upload env u bucket key source st = Some (Some err, st') ->
  buckets (world st') = buckets (world st).
Proof.
  intros H. unfold Uploader_Upload in H. cbv zeta in H.
  apply bind_inv in H as (s & st0 & Hinv & H).
  apply invoke_inv in Hinv as (options & Hc & -> & ->).
  destruct (answer env (CreateMultipartUploadInput bucket key) options st)
    as [uploadId|e] eqn:Hcreate.
  - apply create_step in Hcreate as (Hb0 & _ & _ & _ & Hs0 & _).
    apply bind_inv in H as (choices & st0' & Hch & H).
    unfold in_world in Hch. injection Hch as <- <-.
    apply bind_inv in H as (r & st1 & Hparts & H).
    eapply upload_parts_store in Hparts as (Hb1 & _ & _ & _); [|exact Hs0].
    cbn [world] in Hb1.
    destruct r as [completed|e].
    + apply bind_inv in H as (c & st2 & Hinv & H).
      apply invoke_inv in Hinv as (options' & Hc' & -> & ->).
      pose proof (send_complete options' bucket key uploadId (manifest completed)
                    (world st1)) as F. cbv zeta in F.
      rewrite answer_send in H.
      assert (world (after env (CompleteMultipartUploadInput bucket key uploadId
                                  (manifest completed)) options' st1)
              = (send (CompleteMultipartUploadInput bucket key uploadId
                         (manifest completed)) options' (world st1)).2) as Hw by done.
      destruct (send (CompleteMultipartUploadInput bucket key uploadId
                        (manifest completed)) options' (world st1)) as [c w].
      cbn [fst snd] in *. destruct c as [[]|e]; [done|].
      destruct F as (_ & _ & Hb2 & _).
      apply bind_inv in H as ([] & st3 & Habort & H). injection H as _ <-.
      apply abort_upload_buckets in Habort. by rewrite Habort, Hw, Hb2, Hb1.
    + apply bind_inv in H as ([] & st3 & Habort & H). injection H as _ <-.
      apply abort_upload_buckets in Habort. by rewrite Habort, Hb1.
  - injection H as _ <-.
    by destruct (send_create options bucket key (world st)) as (Hb & _).
Qed.

(** C5, with the abort as the manager has it, best effort.  A large
    upload in which the request of a part is lost returns the failure of
    that part and leaves no object behind: every bucket is as it was, a
    download of the key gives what it gave before, and a key that held no
    object holds none.  The session of the upload is aborted, its parts
    dropped, when the abort request reaches the service; when the abort
    request is lost as well the session stays open. *)
Theorem UploadLargeObject_part_failure_aborts
    (bucketName objectKey : string) (largeObject : bytes)
    (options : s3_Options) (st : State Store) (d : BucketData)
    (m : nat) (err : error) (later : list Fault) :
  s3Client (svc st) = Some options ->
  bucket_of options "CreateMultipartUpload" bucketName (world st) = inl d ->
  faults (world st) = replicate (S m) Deliver ++ FailRequest err :: later ->
  (m < length (split_parts (10 * 1024 * 1024) largeObject))%nat ->
  exists st',
    UploadLargeObject env bucketName objectKey largeObject st = Some (Some err, st') /\
    buckets (world st') = buckets (world st) /\
    (forall range,
       (get_object options bucketName objectKey range (world st')).1
       = (get_object options bucketName objectKey range (world st)).1) /\
    (bucket_objects d !! objectKey = None ->
     forall range,
       (get_object options bucketName objectKey range (world st')).1
       = inr (api_error "GetObject" (types_NoSuchKey objectKey))) /\
    exists x, sessions (world st') !! length (sessions (world st)) = Some x /\
              session_bucket x = bucketName /\ session_key x = objectKey /\
              if refuses later then active x = true
              else session_state x = Aborted /\ session_parts x = ∅.
Proof.
  intros Hc Hb Hf Hm.
  pose proof (UploadLargeObject_is_Upload env bucketName objectKey largeObject st) as Hup.
  destruct (Upload_part_lost {| PartSize := 10 * 1024 * 1024 |} bucketName objectKey
              largeObject options st d m err later Hc Hb Hf Hm)
    as (st1 & Hrun & _ & Hb1 & _ & Hx).
  rewrite Hrun in Hup. destruct Hup as (st' & Hrun' & Hw & _).
  exists st'. rewrite Hw. split; [done|]. split; [done|].
  split; [intros range; by apply get_object_buckets|].
  split; [|done].
  intros Hnone range. rewrite (get_object_buckets _ _ _ _ _ (world st)) by done.
  unfold get_object.
  apply bucket_of_inl in Hb as [Hb Ho].
  rewrite (proj2 (bucket_of_inl options "GetObject" bucketName (world st) d)) by done.
  by rewrite Hnone.
Qed.

(** *** Writing chunks at their offsets *)

Lemma WriteAt_lookup (buf p : bytes) (pos i : nat) :
  WriteAt buf p (Z.of_nat pos) !! i
  = if decide (i < pos)%nat
    then (buf ++ replicate (pos + length p - length buf) Byte.x00) !! i
    else if decide (i < pos + length p)%nat then p !! (i - pos)%nat
         else buf !! i.
Proof.
  unfold WriteAt. rewrite Nat2Z.id.
  set (expanded := buf ++ replicate (pos + length p - length buf) Byte.x00).
  assert (length expanded = Nat.max (length buf) (pos + length p)) as Hlen
    by (unfold expanded; rewrite length_app, length_replicate; lia).
  assert (length (take pos expanded) = pos) as Htake by (rewrite length_take; lia).
  case_decide as H1.
  - rewrite lookup_app_l by lia. by rewrite lookup_take_lt.
  - rewrite lookup_app_r by lia. rewrite Htake.
    case_decide as H2.
    + by rewrite lookup_app_l by lia.
    + rewrite lookup_app_r by lia. rewrite lookup_drop.
      replace (pos + length p + (i - pos - length p))%nat with i by lia.
      unfold expanded. destruct (decide (i < length buf)%nat).
      * by rewrite lookup_app_l.
      * rewrite lookup_app_r by lia.
        rewrite (lookup_ge_None_2 buf) by lia.
        apply lookup_replicate_None. lia.
Qed.

Lemma WriteAt_length (buf p : bytes) (pos : nat) :
  length (WriteAt buf p (Z.of_nat pos)) = Nat.max (length buf) (pos + length p).
Proof.
  unfold WriteAt. rewrite Nat2Z.id.
  rewrite !length_app, length_take, length_drop, length_app, length_replicate. lia.
Qed.

Lemma slice_length (first last : Z) (data : bytes) :
  0 <= first ->
  length (slice (Some (first, last)) data)
  = Nat.min (Z.to_nat (last - first + 1)) (length data - Z.to_nat first).
Proof. intros H. unfold slice. by rewrite length_take, length_drop. Qed.

Lemma slice_lookup (first last : Z) (data : bytes) (j : nat) :
  (j < Z.to_nat (last - first + 1))%nat ->
  slice (Some (first, last)) data !! j = data !! (Z.to_nat first + j)%nat.
Proof. intros H. unfold slice. rewrite lookup_take_lt by done. apply lookup_drop. Qed.

(** Writing the chunk of a range keeps what the buffer already has of the
    object, adds the bytes of the range, and stays within the object. *)
Lemma write_range (data buf : bytes) (first last : Z) :
  0 <= first <= Z.of_nat (length data) ->
  (length buf <= length data)%nat ->
  let buf' := WriteAt buf (slice (Some (first, last)) data) first in
  (length buf' <= length data)%nat /\
  (forall i, (i < length data)%nat -> buf !! i = data !! i -> buf' !! i = data !! i) /\
  (forall i, (i < length data)%nat -> first <= Z.of_nat i <= last ->
             buf' !! i = data !! i).
Proof.
  intros Hfirst Hbuf buf'. subst buf'.
  remember (slice (Some (first, last)) data) as chunk eqn:Hchunk'.
  assert (first = Z.of_nat (Z.to_nat first)) as Hpos by lia.
  rewrite Hpos.
  assert (length chunk = Nat.min (Z.to_nat (last - first + 1))
                           (length data - Z.to_nat first)) as Hchunk
    by (rewrite Hchunk'; apply slice_length; lia).
  assert (forall j, (j < Z.to_nat (last - first + 1))%nat ->
            chunk !! j = data !! (Z.to_nat first + j)%nat) as Hlook
    by (intros j Hj; rewrite Hchunk'; by apply slice_lookup).
  clear Hchunk'.
  split; [|split].
  - rewrite WriteAt_length. lia.
  - intros i Hi Hgood. rewrite WriteAt_lookup.
    assert (i < length buf)%nat.
    { apply lookup_lt_is_Some. rewrite Hgood. by apply lookup_lt_is_Some. }
    repeat case_decide.
    + by rewrite lookup_app_l.
    + rewrite Hlook by lia. f_equal. lia.
    + done.
  - intros i Hi Hin. rewrite WriteAt_lookup.
    repeat case_decide; try lia.
    rewrite Hlook by lia. f_equal. lia.
Qed.

Lemma write_ranges_cons (data buffer : bytes) (r : Z * Z) (order : list (Z * Z)) :
  write_ranges data buffer (r :: order)
  = write_ranges data (WriteAt buffer (slice (Some r) data) r.1) order.
Proof. reflexivity. Qed.

Lemma write_ranges_good (data : bytes) (order : list (Z * Z)) (buf : bytes) :
  (forall r, r ∈ order -> 0 <= r.1 <= Z.of_nat (length data)) ->
  (length buf <= length data)%nat ->
  (length (write_ranges data buf order) <= length data)%nat /\
  forall i, (i < length data)%nat ->
    buf !! i = data !! i \/ (exists r, r ∈ order /\ r.1 <= Z.of_nat i <= r.2) ->
    write_ranges data buf order !! i = data !! i.
Proof.
  revert buf. induction order as [|[first last] rest IH]; intros buf Hr Hbuf.
  - split; [done|]. intros i Hi [H|(r & Hin & _)]; [done|]. by apply elem_of_nil in Hin.
  - rewrite write_ranges_cons. cbn [fst].
    destruct (write_range data buf first last) as (Hlen & Hkeep & Hnew);
      [apply (Hr (first, last)); by left|done|].
    destruct (IH (WriteAt buf (slice (Some (first, last)) data) first)) as [Hlen' Hgood];
      [intros r Hin; apply Hr; by right|done|].
    split; [done|]. intros i Hi Hcase. apply Hgood; [done|].
    destruct Hcase as [H|(r & Hin & Hcover)].
    + left. by apply Hkeep.
    + apply elem_of_cons in Hin as [->|Hin]; [left; by apply Hnew|right; eauto].
Qed.

Lemma byte_ranges_bounds (fuel : nat) (partSize start total : Z) (r : Z * Z) :
  0 <= start -> r ∈ byte_ranges fuel partSize start total -> 1 <= partSize ->
  start <= r.1 < total.
Proof.
  revert start. induction fuel as [|fuel IH]; intros start Hs Hin Hp; cbn in Hin.
  - by apply elem_of_nil in Hin.
  - destruct (total <=? start) eqn:Hle; [by apply elem_of_nil in Hin|].
    apply Z.leb_gt in Hle. apply elem_of_cons in Hin as [->|Hin]; [cbn; lia|].
    apply IH in Hin; lia.
Qed.

(** With a part size of at least one byte, fuel for [total] ranges is
    enough: every byte from [start] on lies in a range. *)
Lemma byte_ranges_cover (fuel : nat) (partSize start total i : Z) :
  1 <= partSize -> 0 <= start -> start <= i < total -> total - start <= Z.of_nat fuel ->
  exists r, r ∈ byte_ranges fuel partSize start total /\ r.1 <= i <= r.2.
Proof.
  intros Hp. revert start. induction fuel as [|fuel IH]; intros start Hs Hi Hfuel;
    [lia|].
  cbn [byte_ranges]. destruct (total <=? start) eqn:Hle; [apply Z.leb_le in Hle; lia|].
  destruct (decide (i < start + partSize)) as [Hin|Hout].
  - eexists. split; [by left|]. cbn. lia.
  - destruct (IH (start + partSize)) as (r & Hr & Hcover); [lia..|].
    exists r. split; [by right|done].
Qed.

(** Whatever order the ranges complete in, the buffer ends as the object. *)
Lemma download_reassembles (partSize : Z) (data : bytes) (choices : list nat) :
  1 <= partSize ->
  write_ranges data (WriteAt [] (slice (Some (0, partSize - 1)) data) 0)
    (completion_order choices
       (byte_ranges (Z.to_nat (Z.of_nat (length data))) partSize partSize
          (Z.of_nat (length data))))
  = data.
Proof.
  intros Hp.
  set (ranges := byte_ranges _ partSize partSize (Z.of_nat (length data))).
  destruct (write_range data [] 0 (partSize - 1)) as (Hlen0 & _ & Hnew0);
    [lia|cbn; lia|].
  destruct (write_ranges_good data (completion_order choices ranges)
              (WriteAt [] (slice (Some (0, partSize - 1)) data) 0)) as [Hlen Hgood];
    [|done|].
  { intros r Hin. rewrite completion_order_Permutation in Hin.
    apply byte_ranges_bounds in Hin; lia. }
  assert (forall i, (i < length data)%nat ->
            write_ranges data (WriteAt [] (slice (Some (0, partSize - 1)) data) 0)
              (completion_order choices ranges) !! i = data !! i) as Hall.
  { intros i Hi. apply Hgood; [done|].
    destruct (decide (Z.of_nat i < partSize)) as [Hfirst|Hrest].
    - left. apply Hnew0; [done|lia].
    - right. destruct (byte_ranges_cover (Z.to_nat (Z.of_nat (length data))) partSize
                         partSize (Z.of_nat (length data)) (Z.of_nat i))
        as (r & Hr & Hcover); [lia..|].
      exists r. split; [|done]. by rewrite completion_order_Permutation. }
  apply list_eq. intros i. destruct (decide (i < length data)%nat) as [Hi|Hi].
  - by apply Hall.
  - rewrite (lookup_ge_None_2 data) by lia. apply lookup_ge_None_2. lia.
Qed.

(** *** A download, step by step *)

Lemma get_step (options : s3_Options) (bucket key : string) (range : option (Z * Z))
    (st : State Store) (d : BucketData) (data : bytes) :
  bucket_of options "GetObject" bucket (world st) = inl d ->
  bucket_objects d !! key = Some data ->
  let st' := after env (GetObjectInput bucket key range) options st in
  buckets (world st') = buckets (world st) /\
  files (world st') = files (world st) /\
  (faults (world st) = [] -> faults (world st') = []) /\
  match answer env (GetObjectInput bucket key range) options st with
  | inl out =>
      ObjectLength out = Z.of_nat (length data) /\
      (stream_err (Body out) = None -> stream_data (Body out) = slice range data) /\
      (faults (world st) = [] -> stream_err (Body out) = None)
  | inr _ => faults (world st) <> []
  end.
Proof.
  intros Hb Hk. cbv zeta. rewrite after_send, answer_send.
  destruct (faults (world st)) as [|f later] eqn:Hf.
  - rewrite (send_get_present options bucket key range (world st) d data) by done.
    cbn. by rewrite Hf.
  - pose proof (send_get options bucket key range (world st)) as F. cbv zeta in F.
    destruct (send (GetObjectInput bucket key range) options (world st)) as [r w].
    cbn [fst snd] in *. destruct F as (Hbs & _ & Hfi & _ & Hr).
    split; [done|]. split; [done|]. split; [done|].
    destruct r as [out|e]; [|done].
    destruct Hr as (d' & data' & Hb' & Hk' & Hlen & Hdata).
    assert (d' = d) as -> by congruence. assert (data' = data) as -> by congruence.
    by repeat split.
Qed.

Lemma bucket_of_buckets (options : s3_Options) (operation bucket : string)
    (st1 st2 : Store) :
  buckets st1 = buckets st2 ->
  bucket_of options operation bucket st1 = bucket_of options operation bucket st2.
Proof. intros H. unfold bucket_of. by rewrite H. Qed.

(** The ranges loop leaves the store alone; when it returns nil, the
    buffer holds every chunk at its offset; without faults it returns nil. *)
Lemma download_ranges_run (bucket key : string) (order : list (Z * Z)) (buffer : bytes)
    (options : s3_Options) (st st' : State Store) (d : BucketData) (data result : bytes)
    (err : option error) :
  s3Client (svc st) = Some options ->
  bucket_of options "GetObject" bucket (world st) = inl d ->
  bucket_objects d !! key = Some data ->
  download_ranges env bucket key order buffer st = Some ((result, err), st') ->
  (err = None -> result = write_ranges data buffer order) /\
  (faults (world st) = [] -> err = None).
Proof.
  intros Hc Hb Hk. revert buffer st Hc Hb.
  induction order as [|[first last] rest IH]; intros buffer st Hc Hb H.
  - cbn in H. by injection H as <- <- <-.
  - cbn [download_ranges] in H. apply bind_inv in H as (r & st1 & Hinv & H).
    rewrite (invoke_eq env _ options) in Hinv by done. injection Hinv as <- <-.
    destruct (get_step options bucket key (Some (first, last)) st d data Hb Hk)
      as (Hbs & _ & Hfa & Hr).
    destruct (answer env (GetObjectInput bucket key (Some (first, last))) options st)
      as [out|e].
    + destruct Hr as (_ & Hdata & Hok). unfold io_ReadAll in H. cbv iota in H.
      destruct (stream_err (Body out)) as [e|] eqn:Herr.
      * injection H as <- <- <-. split; [done|]. intros Hnil. by specialize (Hok Hnil).
      * rewrite Hdata in H by done. apply IH in H as [Hres Hnil].
        -- split; [|by intros ?; apply Hnil, Hfa]. intros Hnone.
           rewrite write_ranges_cons. by apply Hres.
        -- done.
        -- by rewrite (bucket_of_buckets _ _ _ _ (world st)).
    + injection H as <- <- <-. split; [done|]. intros Hnil. by destruct Hr.
Qed.

Lemma Download_run (dl : Downloader) (bucket key : string)
    (options : s3_Options) (st st' : State Store) (d : BucketData) (data result : bytes)
    (err : option error) :
  1 <= Downloader_PartSize dl ->
  s3Client (svc st) = Some options ->
  bucket_of options "GetObject" bucket (world st) = inl d ->
  bucket_objects d !! key = Some data ->
  Downloader_Download env dl [] bucket key st = Some ((result, err), st') ->
  (err = None -> result = data) /\ (faults (world st) = [] -> err = None).
Proof.
  intros Hp Hc Hb Hk H. unfold Downloader_Download in H. cbv zeta in H.
  apply bind_inv in H as (r & st1 & Hinv & H).
  rewrite (invoke_eq env _ options) in Hinv by done. injection Hinv as <- <-.
  destruct (get_step options bucket key (Some (0, Downloader_PartSize dl - 1)) st d data
              Hb Hk) as (Hbs & _ & Hfa & Hr).
  destruct (answer env (GetObjectInput bucket key (Some (0, Downloader_PartSize dl - 1)))
              options st) as [out|e].
  - destruct Hr as (Hlen & Hdata & Hok). unfold io_ReadAll in H. cbv iota in H.
    destruct (stream_err (Body out)) as [e|] eqn:Herr.
    + injection H as <- <- <-. split; [done|]. intros Hnil. by specialize (Hok Hnil).
    + apply bind_inv in H as (choices & st2 & Hch & H).
      unfold in_world in Hch. injection Hch as <- <-.
      rewrite Hdata, Hlen in H by done.
      eapply download_ranges_run in H as [Hres Hnil]; [|done| |exact Hk].
      * split; [|by intros ?; apply Hnil, Hfa]. intros Hnone. rewrite (Hres Hnone).
        by apply download_reassembles.
      * by rewrite (bucket_of_buckets _ _ _ _ (world st)).
  - injection H as <- <- <-. split; [done|]. intros Hnil. by destruct Hr.
Qed.

(** Without faults, [DownloadFile] writes the whole object to the file. *)
Lemma DownloadFile_whole (bucket key fileName : string) (options : s3_Options)
    (st : State Store) (d : BucketData) (data : bytes) :
  s3Client (svc st) = Some options ->
  faults (world st) = [] ->
  bucket_of options "GetObject" bucket (world st) = inl d ->
  bucket_objects d !! key = Some data ->
  exists st', DownloadFile env bucket key fileName st = Some (None, st') /\
              files (world st') !! fileName = Some data.
Proof.
  intros Hc Hf Hb Hk.
  pose proof (send_get_present options bucket key None (world st) d data Hf Hb Hk) as Hget.
  destruct (DownloadFile_returns_write_error env bucket key fileName options st
              {| Body := {| stream_data := data; stream_err := None |};
                 ObjectLength := Z.of_nat (length data) |} fileName Hc)
    as (st' & Hrun & Hw).
  - rewrite answer_send. by rewrite Hget.
  - done.
  - exists st'. rewrite Hrun, Hw. rewrite after_send, Hget. cbn.
    unfold write_file. cbn. rewrite lookup_insert_eq. cbn.
    split; [done|]. by rewrite lookup_insert_eq.
Qed.

(** C4. After a large upload that returned nil, a large download of the
    same bucket and key runs to its end; when it returns nil its bytes are
    the source, and without faults it does return nil.  Without faults a
    plain download to a file writes the source as well. *)
Theorem UploadLargeObject_download_roundtrip
    (bucketName objectKey : string) (largeObject : bytes)
    (options : s3_Options) (st st1 : State Store) :
  s3Client (svc st) = Some options ->
  UploadLargeObject env bucketName objectKey largeObject st = Some (None, st1) ->
  (exists data err st2,
     DownloadLargeObject env bucketName objectKey st1 = Some ((data, err), st2) /\
     (err = None -> data = largeObject) /\
     (faults (world st1) = [] -> err = None)) /\
  (faults (world st1) = [] ->
   forall fileName, exists st2,
     DownloadFile env bucketName objectKey fileName st1 = Some (None, st2) /\
     files (world st2) !! fileName = Some largeObject).
Proof.
  intros Hc Hup.
  pose proof (UploadLargeObject_is_Upload env bucketName objectKey largeObject st) as H.
  destruct (Uploader_Upload env _ bucketName objectKey largeObject st)
    as [[e st0]|] eqn:Hrun; [|congruence].
  destruct H as (st' & Hrun' & Hw & Hsvc).
  rewrite Hup in Hrun'. injection Hrun' as <- <-.
  apply (Upload_stores_source _ _ _ _ options) in Hrun
    as (d & Hd & Ho & Hbs & _ & Hsvc0); [|done].
  assert (s3Client (svc st1) = Some options) as Hc1 by (by rewrite Hsvc, Hsvc0).
  set (d1 := with_objects (<[objectKey := largeObject]> (bucket_objects d)) d).
  assert (bucket_of options "GetObject" bucketName (world st1) = inl d1) as Hb1.
  { apply bucket_of_inl. rewrite Hw, Hbs. split; [apply lookup_insert_eq|done]. }
  assert (bucket_objects d1 !! objectKey = Some largeObject) as Hk1
    by apply lookup_insert_eq.
  split.
  - pose proof (DownloadLargeObject_is_Download env bucketName objectKey st1) as Hdl.
    destruct (keeps_Downloader_Download env {| Downloader_PartSize := 10 * 1024 * 1024 |}
                [] bucketName objectKey st1 options Hc1) as ([data err] & st2 & Hrun2 & _).
    rewrite Hrun2 in Hdl. destruct Hdl as (st3 & Hrun3 & _).
    exists data, err, st3. split; [done|].
    eapply Download_run; [|exact Hc1|exact Hb1|exact Hk1|exact Hrun2]. done.
  - intros Hf fileName. by eapply DownloadFile_whole.
Qed.

(** *** Copies *)


(** *** Runs on the sample store *)

(** Runs a closed operation and gives the state it ends in. *)
Ltac end_state m :=
  let x := eval vm_compute in m in
  lazymatch x with
  | Some (_, ?s) => exists s
  end.

(** Runs a closed operation and hands the state it ends in to [tac]. *)
Ltac with_end_state m tac :=
  let x := eval vm_compute in m in
  lazymatch x with
  | Some (_, ?s) => tac s
  end.

(** The probe of an absent bucket, of somebody else's bucket and of a
    bucket when the network is down. *)
Example BucketExists_absent :
  BucketExists env "missing" Sample.state
  = Some ((false, None),
          {| svc := svc Sample.state; world := Sample.store;
             logged := ["Bucket missing is available."] |}).
Proof. reflexivity. Qed.

Example BucketExists_forbidden :
  exists st',
    BucketExists env "vault" Sample.state
    = Some ((true, Some (api_error "HeadBucket"
                           (smithy_GenericAPIError "Forbidden" "Forbidden"))), st').
Proof.
  end_state (BucketExists env "vault" Sample.state). vm_compute. reflexivity.
Qed.

Lemma BucketExists_distinguishes_not_found_witness :
  exists (exists_ : bool) (err : option error) (st' : State Store),
    BucketExists env "missing" Sample.state = Some ((exists_, err), st') /\
    (exists_ = false <->
       exists e, answer env (HeadBucketInput "missing") Sample.options Sample.state = inr e
                 /\ IsNotFound e) /\
    (exists_ = false -> err = None) /\
    (forall e, answer env (HeadBucketInput "missing") Sample.options Sample.state = inr e ->
               ~ IsNotFound e -> err = Some e).
Proof.
  apply (BucketExists_distinguishes_not_found env "missing" Sample.options Sample.state).
  reflexivity.
Defined.

Lemma BucketExists_true_with_error_witness :
  exists st',
    BucketExists env "missing" (Sample.failing [FailRequest (err_Other "dial tcp: timeout")])
    = Some ((true, Some (err_Other "dial tcp: timeout")), st').
Proof.
  apply (BucketExists_true_with_error env "missing" Sample.options).
  - reflexivity.
  - reflexivity.
  - intros [Message H]. discriminate H.
Defined.



(** The copy lands in the bucket it came from. *)
Example CopyToFolder_run :
  exists st', exists d,
    CopyToFolder env "photos" "report" "archive" Sample.state = Some (None, st') /\
    buckets (world st') !! "photos" = Some d /\
    bucket_objects d !! "archive/report" = Some Sample.report /\
    buckets (world st') !! "inbox" = Some Sample.inbox.
Proof.
  end_state (CopyToFolder env "photos" "report" "archive" Sample.state).
  eexists. repeat split; vm_compute; reflexivity.
Qed.

Lemma facade_binding_read_only_witness :
  exists err st',
    perform env (OpDeleteObjects "photos" ["a.txt"; "b.txt"]) Sample.state = Some (err, st') /\
    svc st' = svc Sample.state.
Proof.
  apply (facade_binding_read_only env (OpDeleteObjects "photos" ["a.txt"; "b.txt"])
           Sample.options Sample.state).
  reflexivity.
Defined.

(** C3, at a body that breaks after two of six bytes: [GetObject] and
    [os.Create] succeed, [io.ReadAll] fails, the failure is logged, the two
    bytes are written and [DownloadFile] returns nil. *)
Theorem DownloadFile_read_failure_returns_nil :
  exists st',
    DownloadFile env "photos" "report" "report.bin"
      (Sample.failing [BreakBody 2 (err_Other "unexpected EOF")])
    = Some (None, st') /\
    files (world st') !! "report.bin" = Some [Byte.x72; Byte.x65] /\
    logged st' = ["Couldn't read object body from report. Here's why: unexpected EOF"].
Proof.
  end_state (DownloadFile env "photos" "report" "report.bin"
               (Sample.failing [BreakBody 2 (err_Other "unexpected EOF")])).
  repeat split; vm_compute; reflexivity.
Qed.

(** C1, as the claim has it, fails on a bucket of three objects behind a
    service whose pages hold two: [ListObjects] returns two objects and
    leaves one out. *)
Lemma ListObjects_omits_second_page :
  exists st', exists objects,
    ListObjects env "photos" Sample.state = Some ((objects, None), st') /\
    length (listing Sample.photos) = 3%nat /\
    max_keys Sample.store = 2%nat /\
    length objects = 2%nat /\
    exists o, o ∈ listing Sample.photos /\ Object_Key o ∉ Object_Key <$> objects.
Proof.
  end_state (ListObjects env "photos" Sample.state).
  exists (take 2 (listing Sample.photos)).
  split; [vm_compute; reflexivity|]. repeat split; try reflexivity.
  exists (object_of ("report", Sample.report)). split.
  - apply listing_complete. reflexivity.
  - intros H. apply list_elem_of_In in H. vm_compute in H. intuition discriminate.
Qed.

Lemma ListObjects_returns_first_page_witness :
  exists st',
    ListObjects env "photos" Sample.state
    = Some ((take 2 (listing Sample.photos), None), st') /\
    NoDup (Object_Key <$> take 2 (listing Sample.photos)) /\
    (forall o, o ∈ take 2 (listing Sample.photos) ->
               is_Some (bucket_objects Sample.photos !! Object_Key o)) /\
    ((length (listing Sample.photos) <= 2)%nat ->
     take 2 (listing Sample.photos) = listing Sample.photos /\
     forall key data, bucket_objects Sample.photos !! key = Some data ->
                      object_of (key, data) ∈ take 2 (listing Sample.photos)).
Proof.
  apply (ListObjects_returns_first_page "photos" Sample.options Sample.state Sample.photos).
  - reflexivity.
  - reflexivity.
  - reflexivity.
Defined.

Lemma DeleteBucket_non_empty_fails_witness :
  exists err st',
    DeleteBucket env "photos" Sample.state = Some (Some err, st') /\
    buckets (world st') = buckets (world Sample.state) /\
    sessions (world st') = sessions (world Sample.state) /\
    files (world st') = files (world Sample.state) /\
    (refuses (faults (world Sample.state)) = false ->
     bucket_owner Sample.photos = AccessKeyId Sample.options ->
     errors_As_APIError err
     = Some (smithy_GenericAPIError "BucketNotEmpty"
               "The bucket you tried to delete is not empty")).
Proof.
  apply (DeleteBucket_non_empty_fails "photos" Sample.options Sample.state Sample.photos).
  - reflexivity.
  - reflexivity.
  - intros H. apply (f_equal (fun m => m !! "report")) in H. vm_compute in H. discriminate H.
Defined.

(** Ten bytes in parts of two: part 3 of 5 is lost, in upload order. *)
Example Upload_part_3_of_5_lost :
  exists st',
    Uploader_Upload env {| PartSize := 2 |} "inbox" "movie" Sample.movie
      (MemS3.connected Sample.options
         (with_faults [Deliver; Deliver; Deliver; FailRequest (err_Other "connection reset")]
            {| buckets := buckets Sample.store; sessions := []; files := ∅;
               max_keys := 2; faults := []; choices := [] |}))
    = Some (Some (err_Other "connection reset"), st') /\
    buckets (world st') = buckets Sample.store /\
    session_state <$> sessions (world st') = [Aborted] /\
    logged st' = [].
Proof.
  with_end_state
    (Uploader_Upload env {| PartSize := 2 |} "inbox" "movie" Sample.movie
       (MemS3.connected Sample.options
          (with_faults [Deliver; Deliver; Deliver; FailRequest (err_Other "connection reset")]
             {| buckets := buckets Sample.store; sessions := []; files := ∅;
                max_keys := 2; faults := []; choices := [] |})))
    ltac:(fun s => exists s).
  repeat split; vm_compute; reflexivity.
Qed.

(** Ten bytes in parts of two, completing in the order 4, 2, 3, 5, 1, and
    read back in ranges of three. *)
Example Upload_then_Download :
  exists st1 st2,
    Uploader_Upload env {| PartSize := 2 |} "inbox" "movie" Sample.movie Sample.state
    = Some (None, st1) /\
    Downloader_Download env {| Downloader_PartSize := 3 |} [] "inbox" "movie" st1
    = Some ((Sample.movie, None), st2).
Proof.
  with_end_state
    (Uploader_Upload env {| PartSize := 2 |} "inbox" "movie" Sample.movie Sample.state)
    ltac:(fun s1 =>
      exists s1;
      with_end_state
        (Downloader_Download env {| Downloader_PartSize := 3 |} [] "inbox" "movie" s1)
        ltac:(fun s2 => exists s2)).
  split; vm_compute; reflexivity.
Qed.

Lemma UploadLargeObject_parts_and_manifest_witness :
  exists st' trace,
    UploadLargeObject (recording env) "inbox" "report" Sample.report Demo.recorded
    = Some (None, st') /\
    (world st').2 = trace /\
    exists id parts,
      last trace
      = Some (exchange (CompleteMultipartUploadInput "inbox" "report" id parts) (inl tt)).
Proof.
  destruct (UploadLargeObject_parts_and_manifest Store env "inbox" "report" Sample.report
              Sample.options Demo.recorded)
    as (err & st' & trace & Hrun & _ & Htrace & _ & _ & Hlast).
  - reflexivity.
  - assert (err = None) as ->.
    { assert (option_map fst
                (UploadLargeObject (recording env) "inbox" "report" Sample.report
                   Demo.recorded) = Some None) as Hnone by (vm_compute; reflexivity).
      rewrite Hrun in Hnone. by injection Hnone. }
    exists st', trace. split; [exact Hrun|]. split; [exact Htrace|]. by apply Hlast.
Defined.

(** The part numbers of the parts a record shows, in the order sent, and
    the manifests of its completion requests. *)
Example Upload_recorded_order :
  exists st',
    Uploader_Upload (recording env) {| PartSize := 2 |} "inbox" "movie" Sample.movie
      Demo.recorded
    = Some (None, st') /\
    omap (fun x : Exchange =>
            match projT1 x with
            | UploadPartInput _ _ _ n _ => Some n
            | _ => None
            end) (world st').2
    = [4; 2; 3; 5; 1] /\
    omap (fun x : Exchange =>
            match projT1 x with
            | CompleteMultipartUploadInput _ _ _ parts => Some parts
            | _ => None
            end) (world st').2
    = [completed_part <$> number_parts 1 (split_parts 2 Sample.movie)].
Proof.
  with_end_state
    (Uploader_Upload (recording env) {| PartSize := 2 |} "inbox" "movie" Sample.movie
       Demo.recorded)
    ltac:(fun s => exists s).
  repeat split; vm_compute; reflexivity.
Qed.

Lemma UploadLargeObject_part_failure_aborts_witness :
  exists st',
    UploadLargeObject env "inbox" "report" Sample.report
      (Sample.failing [Deliver; FailRequest (err_Other "connection reset"); Deliver])
    = Some (Some (err_Other "connection reset"), st') /\
    buckets (world st') = buckets Sample.store /\
    (forall range,
       (get_object Sample.options "inbox" "report" range (world st')).1
       = inr (api_error "GetObject" (types_NoSuchKey "report"))) /\
    exists x, sessions (world st') !! 0%nat = Some x /\
              session_bucket x = "inbox" /\ session_key x = "report" /\
              session_state x = Aborted /\ session_parts x = ∅.
Proof.
  destruct (UploadLargeObject_part_failure_aborts "inbox" "report" Sample.report
              Sample.options
              (Sample.failing [Deliver; FailRequest (err_Other "connection reset"); Deliver])
              Sample.inbox 0%nat (err_Other "connection reset") [Deliver])
    as (st' & Hrun & Hb & _ & Hnone & Hx).
  - reflexivity.
  - vm_compute. reflexivity.
  - reflexivity.
  - vm_compute. lia.
  - exists st'. split; [exact Hrun|]. split; [exact Hb|]. split; [|exact Hx].
    apply Hnone. reflexivity.
Defined.

(** C5, as the claim has it, fails when the abort request is lost as well:
    the failure of the part is returned, the failed abort is logged, and
    the session is left open. *)
Lemma UploadLargeObject_lost_abort_leaves_session_open :
  exists st',
    UploadLargeObject env "inbox" "report" Sample.report
      (Sample.failing [Deliver; FailRequest (err_Other "connection reset");
                       FailRequest (err_Other "network is unreachable")])
    = Some (Some (err_Other "connection reset"), st') /\
    buckets (world st') = buckets Sample.store /\
    session_state <$> sessions (world st') = [Initiated] /\
    Initiated <> Aborted /\
    logged st'
    = ["failed to abort multipart upload: network is unreachable";
       "Couldn't upload large object to inbox:report. Here's why: connection reset"].
Proof.
  with_end_state
    (UploadLargeObject env "inbox" "report" Sample.report
       (Sample.failing [Deliver; FailRequest (err_Other "connection reset");
                        FailRequest (err_Other "network is unreachable")]))
    ltac:(fun s => exists s).
  repeat split; try (vm_compute; reflexivity). discriminate.
Qed.

Lemma UploadLargeObject_download_roundtrip_witness :
  exists st1,
    UploadLargeObject env "inbox" "report" Sample.report Sample.state = Some (None, st1) /\
    (exists data err st2,
       DownloadLargeObject env "inbox" "report" st1 = Some ((data, err), st2) /\
       (err = None -> data = Sample.report) /\
       (faults (world st1) = [] -> err = None)) /\
    (faults (world st1) = [] ->
     forall fileName, exists st2,
       DownloadFile env "inbox" "report" fileName st1 = Some (None, st2) /\
       files (world st2) !! fileName = Some Sample.report).
Proof.
  with_end_state (UploadLargeObject env "inbox" "report" Sample.report Sample.state)
    ltac:(fun s => exists s).
  split; [vm_compute; reflexivity|].
  apply (UploadLargeObject_download_roundtrip "inbox" "report" Sample.report
           Sample.options Sample.state).
  - reflexivity.
  - vm_compute. reflexivity.
Defined.

End MemS3Facts.

(** * The rest of the package *)

Section FacadeExits.

Context {W : Type} (env : Env W).

Lemma fold_append {A} (keys acc : list A) :
  fold_left (fun ids key => ids ++ [key]) keys acc = acc ++ keys.
Proof.
  revert acc. induction keys as [|key rest IH]; intros acc; cbn.
  - by rewrite app_nil_r.
  - rewrite IH. by rewrite <- app_assoc.
Qed.

(** X1. [ListBuckets], [CreateBucket], [CopyToFolder], [ListObjects] and
    [DeleteBucket] are one request each: the operation returns the error
    of that request, leaves the world that request leaves, and writes one
    line to the log exactly when the error is not nil. *)
Theorem single_request_passes_through
    (op : Operation) (i : Input) (options : s3_Options) (st : State W) :
  s3Client (svc st) = Some options ->
  request_of op = Some i ->
  exists st',
    perform env op st = Some (error_of (answer env i options st), st') /\
    world st' = world (after env i options st) /\
    match error_of (answer env i options st) with
    | Some _ => exists line, logged st' = logged st ++ [line]
    | None => logged st' = logged st
    end.
Proof.
  intros Hc Hreq.
  destruct op; cbn in Hreq; try discriminate; injection Hreq as <-;
    unfold perform, ListBuckets, CreateBucket, CopyToFolder, ListObjects, DeleteBucket,
      M_bind;
    rewrite (invoke_eq env _ options) by done;
    match goal with
    | |- context [answer env ?i options st] => destruct (answer env i options st)
    end; cbn; eauto.
Qed.

(** X2. [DeleteObjects] sends one request that names every key it was
    given, in the order given and as often as given, also when it was
    given none; it returns the error of that request. *)
Theorem DeleteObjects_names_every_key
    (bucketName : string) (objectKeys : list string) (options : s3_Options)
    (st : State W) :
  s3Client (svc st) = Some options ->
  exists st',
    DeleteObjects env bucketName objectKeys st
    = Some (error_of (answer env (DeleteObjectsInput bucketName objectKeys) options st),
            st') /\
    world st' = world (after env (DeleteObjectsInput bucketName objectKeys) options st).
Proof.
  intros Hc. unfold DeleteObjects. cbv zeta. rewrite fold_append. cbn [app].
  unfold M_bind. rewrite (invoke_eq env _ options) by done.
  destruct (answer env (DeleteObjectsInput bucketName objectKeys) options st); cbn; eauto.
Qed.

(** X3. When the file cannot be opened, [UploadFile] returns the error of
    [os.Open], logs one line and sends nothing: it does not even look at
    the client.  When the file opens, it sends one [PutObject] with the
    bytes of the file and returns the error of that request. *)
Theorem UploadFile_exits (bucketName objectKey fileName : string) (st : State W) :
  (forall e,
     (os_Open env fileName (world st)).1 = inr e ->
     exists st',
       UploadFile env bucketName objectKey fileName st = Some (Some e, st') /\
       world st' = (os_Open env fileName (world st)).2 /\
       svc st' = svc st /\
       exists line, logged st' = logged st ++ [line]) /\
  (forall file options,
     (os_Open env fileName (world st)).1 = inl file ->
     s3Client (svc st) = Some options ->
     let st1 := Build_State (svc st) (os_Open env fileName (world st)).2 (logged st) in
     exists st',
       UploadFile env bucketName objectKey fileName st
       = Some (error_of (answer env (PutObjectInput bucketName objectKey file) options st1),
               st') /\
       world st' = world (after env (PutObjectInput bucketName objectKey file) options st1)).
Proof.
  split.
  - intros e He. unfold UploadFile, M_bind at 1, in_world at 1.
    destruct (os_Open env fileName (world st)) as [r w]. cbn in He. subst r.
    cbn. eauto 10.
  - intros file options Hf Hc st1. subst st1.
    unfold UploadFile, M_bind at 1, in_world at 1.
    destruct (os_Open env fileName (world st)) as [r w]. cbn in Hf. subst r.
    cbn [snd]. unfold M_bind. rewrite (invoke_eq env _ options) by done.
    match goal with
    | |- context [answer env ?i options ?s] => destruct (answer env i options s)
    end; cbn; eauto.
Qed.

(** X4. [DownloadFile] stops at the first step that fails: when
    [GetObject] fails it returns that error and the local file is neither
    created nor truncated; when [os.Create] fails it returns that error
    and nothing is written. *)
Theorem DownloadFile_early_exits
    (bucketName objectKey fileName : string) (options : s3_Options) (st : State W) :
  s3Client (svc st) = Some options ->
  let request := GetObjectInput bucketName objectKey None in
  (forall e,
     answer env request options st = inr e ->
     exists st',
       DownloadFile env bucketName objectKey fileName st = Some (Some e, st') /\
       world st' = world (after env request options st)) /\
  (forall result e,
     answer env request options st = inl result ->
     (os_Create env fileName (world (after env request options st))).1 = inr e ->
     exists st',
       DownloadFile env bucketName objectKey fileName st = Some (Some e, st') /\
       world st' = (os_Create env fileName (world (after env request options st))).2).
Proof.
  intros Hc request. split.
  - intros e He. unfold DownloadFile, M_bind at 1.
    rewrite (invoke_eq env _ options) by done. fold request. rewrite He. cbn. eauto.
  - intros result e Hr He. unfold DownloadFile, M_bind at 1.
    rewrite (invoke_eq env _ options) by done. fold request. rewrite Hr.
    unfold M_bind at 1, in_world at 1.
    destruct (os_Create env fileName (world (after env request options st))) as [r w].
    cbn in He. subst r. cbn. eauto.
Qed.

(** X5. Once the object is fetched and the file created, [DownloadFile]
    writes the bytes that [io.ReadAll] delivered, whether the read failed
    or not, and returns the error of [file.Write] and no other; a failed
    read leaves one line in the log. *)
Theorem DownloadFile_returns_what_Write_returns
    (bucketName objectKey fileName : string) (options : s3_Options) (st : State W)
    (result : GetObjectOutput) (file : string) :
  s3Client (svc st) = Some options ->
  answer env (GetObjectInput bucketName objectKey None) options st = inl result ->
  let st1 := after env (GetObjectInput bucketName objectKey None) options st in
  (os_Create env fileName (world st1)).1 = inl file ->
  let written :=
    file_Write env file (stream_data (Body result))
      (os_Create env fileName (world st1)).2 in
  exists st',
    DownloadFile env bucketName objectKey fileName st = Some (written.1.2, st') /\
    world st' = written.2 /\
    match stream_err (Body result) with
    | Some _ => exists line, logged st' = logged st ++ [line]
    | None => logged st' = logged st
    end.
Proof.
  intros Hc Hr st1 Hf written. subst written. unfold DownloadFile, M_bind at 1.
  rewrite (invoke_eq env _ options) by done. rewrite Hr. fold st1.
  unfold M_bind at 1, in_world at 1.
  destruct (os_Create env fileName (world st1)) as [f w] eqn:Hcreate.
  cbn in Hf. subst f. cbn.
  destruct (stream_err (Body result)); cbn;
    unfold M_bind, in_world, log_Printf, M_ret; cbn;
    destruct (file_Write env file (stream_data (Body result)) w) as [[n werr] w'];
    cbn; eauto.
Qed.

(** X6. [BucketExists] sends the probe and nothing else, and writes one
    line to the log on every path but one: a probe error that carries no
    API error comes back as [(true, err)] without a line. *)
Theorem BucketExists_log_lines
    (bucketName : string) (options : s3_Options) (st : State W) :
  s3Client (svc st) = Some options ->
  exists r st',
    BucketExists env bucketName st = Some (r, st') /\
    world st' = world (after env (HeadBucketInput bucketName) options st) /\
    match answer env (HeadBucketInput bucketName) options st with
    | inl _ => exists line, logged st' = logged st ++ [line]
    | inr e =>
        match errors_As_APIError e with
        | Some _ => exists line, logged st' = logged st ++ [line]
        | None => logged st' = logged st /\ r = (true, Some e)
        end
    end.
Proof.
  intros Hc. unfold BucketExists, M_bind.
  rewrite (invoke_eq env _ options) by done.
  destruct (answer env (HeadBucketInput bucketName) options st) as [u|e]; cbn;
    [eauto 10|].
  destruct (errors_As_APIError e) as [a|]; [destruct (is_types_NotFound a)|];
    cbn; eauto 10.
Qed.

End FacadeExits.

Section ProgramProperties.

Context {W : Type} (env : Env W) (host : Host W).

Lemma fold_print (f : Object -> string) (objects : list Object) (out : list string) :
  fold_left (fun out o => out ++ [f o]) objects out = out ++ (f <$> objects).
Proof.
  revert out. induction objects as [|o rest IH]; intros out; cbn.
  - by rewrite app_nil_r.
  - rewrite IH. by rewrite <- app_assoc.
Qed.

(** X7. [LoadVariables] never reports a failure: whether [godotenv.Load]
    fails or not it returns nil and sets the three variables to what
    [os.Getenv] answers afterwards; a failed load leaves no line in the
    log, a successful one leaves one.  The client binding and the output
    are untouched. *)
Theorem LoadVariables_never_fails (p : Process W) :
  let loaded := godotenv_Load host (world (facade p)) in
  let r := LoadVariables host p in
  r.1 = None /\
  world (facade r.2) = loaded.2 /\
  Variables r.2
  = {| AwsS3Bucket := os_Getenv host "AWS_S3_BUCKET" loaded.2;
       AwsAccessKeyId := os_Getenv host "AWS_ACCESS_KEY_ID" loaded.2;
       AwsSecretAccessKey := os_Getenv host "AWS_SECRET_ACCESS_KEY" loaded.2 |} /\
  svc (facade r.2) = svc (facade p) /\
  stdout r.2 = stdout p /\
  match loaded.1 with
  | None => exists line, logged (facade r.2) = logged (facade p) ++ [line]
  | Some _ => logged (facade r.2) = logged (facade p)
  end.
Proof.
  cbv zeta. unfold LoadVariables.
  destruct (godotenv_Load host (world (facade p))) as [[e|] w]; cbn;
    repeat split; eauto.
Qed.

(** X8. [main] never stops at the configuration and never panics: with
    whatever [LoadVariables] found, it binds the client for the region
    [sa-east-1], sends one [ListObjectsV2] request for the configured
    bucket, and then either prints one line per object of the answer, in
    its order, and returns, or prints nothing and exits with status 1. *)
Theorem main_lists_and_prints (p : Process W) :
  let p1 := (LoadVariables host p).2 in
  let options := {| Region := "sa-east-1";
                    AccessKeyId := AwsAccessKeyId (Variables p1);
                    SecretAccessKey := AwsSecretAccessKey (Variables p1) |} in
  let st1 := Build_State {| s3Client := Some options |}
               (world (facade p1)) (logged (facade p1)) in
  let request := ListObjectsV2Input (AwsS3Bucket (Variables p1)) None in
  exists exit p',
    main env host p = Some (exit, p') /\
    svc (facade p') = {| s3Client := Some options |} /\
    world (facade p') = world (after env request options st1) /\
    Variables p' = Variables p1 /\
    match answer env request options st1 with
    | inl result =>
        exit = Return /\
        stdout p' = stdout p ++ (fmt_Println ∘ printStruct host <$> Contents result)
    | inr _ => exit = os_Exit 1 /\ stdout p' = stdout p
    end.
Proof.
  cbv zeta. unfold main.
  destruct (LoadVariables_never_fails p) as (Herr & _ & _ & _ & Hout & _).
  cbv zeta in Herr, Hout.
  destruct (LoadVariables host p) as [err p1]. cbn [fst snd] in *. subst err.
  unfold NewClient. unfold ListObjects, M_bind.
  rewrite (invoke_eq env _ {| Region := "sa-east-1";
                             AccessKeyId := AwsAccessKeyId (Variables p1);
                             SecretAccessKey := AwsSecretAccessKey (Variables p1) |})
    by done.
  match goal with
  | |- context [answer env ?i ?o ?s] => destruct (answer env i o s) as [result|e]
  end; cbn.
  - eexists _, _. split; [done|]. cbn. repeat split; try done.
    rewrite fold_print, Hout. done.
  - eexists _, _. split; [done|]. cbn. by rewrite Hout.
Qed.

End ProgramProperties.

(** ** Operations in sequence, over the in-memory store *)

Module MemS3Runs.
Import MemS3 MemS3Facts.

Lemma send_no_fault (i : Input) (options : s3_Options) (st : Store) :
  faults st = [] -> send i options st = serve i options st.
Proof. intros H. unfold send. by rewrite H. Qed.

(** Sends the request at the head of the operation, over a store without
    faults. *)
Ltac send_now options :=
  unfold M_bind at 1; rewrite (invoke_eq env _ options) by done;
  unfold answer, after; cbn [s3_invoke env world svc logged];
  rewrite send_no_fault by done; cbn [serve].

Lemma delete_keys_lookup (objects : gmap string bytes) (keys : list string) (key : string) :
  foldr delete objects keys !! key
  = if decide (key ∈ keys) then None else objects !! key.
Proof.
  induction keys as [|k rest IH]; cbn.
  - rewrite decide_False; [done|]. apply not_elem_of_nil.
  - destruct (decide (k = key)) as [->|Hne].
    + rewrite lookup_delete_eq. rewrite decide_True; [done|]. by left.
    + rewrite lookup_delete_ne by done. rewrite IH.
      destruct (decide (key ∈ rest)) as [Hin|Hout].
      * rewrite decide_True; [done|]. by right.
      * rewrite decide_False; [done|]. intros [->|?]%elem_of_cons; done.
Qed.

(** X9. Without faults, in a bucket of the caller: [UploadFile] of a local
    file followed by [DownloadFile] of the same key into another file both
    return nil, and the second file holds the bytes of the first. *)
Theorem UploadFile_then_DownloadFile
    (bucketName objectKey source target : string) (options : s3_Options)
    (st : State Store) (d : BucketData) (data : bytes) :
  s3Client (svc st) = Some options ->
  faults (world st) = [] ->
  buckets (world st) !! bucketName = Some d ->
  bucket_owner d = AccessKeyId options ->
  files (world st) !! source = Some data ->
  exists st1 st2,
    UploadFile env bucketName objectKey source st = Some (None, st1) /\
    DownloadFile env bucketName objectKey target st1 = Some (None, st2) /\
    files (world st2) !! target = Some data.
Proof.
  intros Hc Hf Hb Ho Hfile.
  set (d1 := with_objects (<[objectKey := data]> (bucket_objects d)) d).
  set (st1 := Build_State (svc st) (store_object bucketName objectKey data d (world st))
                (logged st)).
  assert (UploadFile env bucketName objectKey source st = Some (None, st1)) as Hup.
  { unfold UploadFile, M_bind at 1, in_world at 1. cbn [os_Open env].
    unfold open_file. rewrite Hfile. cbn [fst snd].
    change {| svc := svc st; world := world st; logged := logged st |}
      with (Build_State (svc st) (world st) (logged st)).
    send_now options. unfold put_object.
    rewrite (bucket_of_owned _ _ _ _ d) by done. done. }
  destruct (DownloadFile_whole bucketName objectKey target options st1 d1 data)
    as (st2 & Hdown & Hout); try done.
  - apply bucket_of_inl. split; [apply lookup_insert_eq|done].
  - apply lookup_insert_eq.
  - by exists st1, st2.
Qed.


(** X11. Without faults, in a bucket of the caller: [DeleteObjects] returns
    nil, the keys it was given are gone, absent keys among them are no
    error, and every other object is as it was.  When the keys cover the
    bucket, [DeleteBucket] then returns nil and the bucket is gone. *)
Theorem DeleteObjects_then_DeleteBucket
    (bucketName : string) (objectKeys : list string) (options : s3_Options)
    (st : State Store) (d : BucketData) :
  s3Client (svc st) = Some options ->
  faults (world st) = [] ->
  buckets (world st) !! bucketName = Some d ->
  bucket_owner d = AccessKeyId options ->
  exists st1 d1,
    DeleteObjects env bucketName objectKeys st = Some (None, st1) /\
    buckets (world st1) !! bucketName = Some d1 /\
    (forall key, key ∈ objectKeys -> bucket_objects d1 !! key = None) /\
    (forall key, key ∉ objectKeys -> bucket_objects d1 !! key = bucket_objects d !! key) /\
    ((forall key, is_Some (bucket_objects d !! key) -> key ∈ objectKeys) ->
     exists st2,
       DeleteBucket env bucketName st1 = Some (None, st2) /\
       buckets (world st2) !! bucketName = None).
Proof.
  intros Hc Hf Hb Ho.
  set (d1 := with_objects (foldr delete (bucket_objects d) objectKeys) d).
  set (st1 := Build_State (svc st)
                (with_buckets (<[bucketName := d1]> (buckets (world st))) (world st))
                (logged st)).
  assert (buckets (world st1) !! bucketName = Some d1) as Hb1 by apply lookup_insert_eq.
  exists st1, d1. split; [|split; [done|split; [|split]]].
  - unfold DeleteObjects. cbv zeta. rewrite fold_append. cbn [app].
    send_now options. unfold delete_objects.
    rewrite (bucket_of_owned _ _ _ _ d) by done. done.
  - intros key Hin. cbn. rewrite delete_keys_lookup. by rewrite decide_True.
  - intros key Hout. cbn. rewrite delete_keys_lookup. by rewrite decide_False.
  - intros Hcover.
    assert (bucket_objects d1 = ∅) as Hempty.
    { apply map_eq. intros key. cbn. rewrite delete_keys_lookup, lookup_empty.
      destruct (decide (key ∈ objectKeys)) as [|Hout]; [done|].
      destruct (bucket_objects d !! key) eqn:Hk; [|done].
      destruct Hout. apply Hcover. by rewrite Hk. }
    eexists. split.
    + unfold DeleteBucket. send_now options. unfold delete_bucket.
      rewrite (bucket_of_owned _ _ _ _ d1) by done.
      rewrite decide_True by done. done.
    + cbn. apply lookup_delete_eq.
Qed.

(** X12. Without faults, in a bucket of the caller whose name has no slash:
    [CopyToFolder] of a key that holds an object returns nil, the object
    is then under [folderName/objectKey] as well, and every other key and
    every other bucket is as it was; of a key that holds none it returns
    [NoSuchKey] and changes nothing. *)
Theorem CopyToFolder_copies
    (bucketName objectKey folderName : string) (options : s3_Options)
    (st : State Store) (d : BucketData) :
  s3Client (svc st) = Some options ->
  faults (world st) = [] ->
  has_slash bucketName = false ->
  buckets (world st) !! bucketName = Some d ->
  bucket_owner d = AccessKeyId options ->
  match bucket_objects d !! objectKey with
  | Some data =>
      exists st' d',
        CopyToFolder env bucketName objectKey folderName st = Some (None, st') /\
        buckets (world st') !! bucketName = Some d' /\
        bucket_objects d' !! (folderName +:+ "/" +:+ objectKey) = Some data /\
        (forall key, key <> folderName +:+ "/" +:+ objectKey ->
                     bucket_objects d' !! key = bucket_objects d !! key) /\
        (forall other, other <> bucketName ->
                       buckets (world st') !! other = buckets (world st) !! other)
  | None =>
      exists st' e,
        CopyToFolder env bucketName objectKey folderName st = Some (Some e, st') /\
        errors_As_APIError e = Some (types_NoSuchKey objectKey) /\
        buckets (world st') = buckets (world st)
  end.
Proof.
  intros Hc Hf Hs Hb Ho.
  destruct (bucket_objects d !! objectKey) as [data|] eqn:Hk.
  - set (d' := with_objects
                 (<[folderName +:+ "/" +:+ objectKey := data]> (bucket_objects d)) d).
    eexists _, d'. split; [|split; [|split; [|split]]].
    + unfold CopyToFolder. send_now options. unfold copy_object.
      rewrite MemS3_cut_at_slash_app by done.
      rewrite !(bucket_of_owned _ _ _ _ d) by done. rewrite Hk. done.
    + cbn. apply lookup_insert_eq.
    + cbn. apply lookup_insert_eq.
    + intros key Hne. cbn. by rewrite lookup_insert_ne.
    + intros other Hne. cbn. by rewrite lookup_insert_ne.
  - eexists _, _. split; [|split].
    + unfold CopyToFolder. send_now options. unfold copy_object.
      rewrite MemS3_cut_at_slash_app by done.
      rewrite !(bucket_of_owned _ _ _ _ d) by done. rewrite Hk. cbn. done.
    + done.
    + done.
Qed.

End MemS3Runs.

(** ** Runs of the rest of the package *)

Module Runs.
Import MemS3 MemS3Facts.

Lemma single_request_passes_through_witness :
  exists st',
    perform env (OpCreateBucket "fresh" "sa-east-1") Sample.state = Some (None, st') /\
    logged st' = [].
Proof.
  destruct (single_request_passes_through env (OpCreateBucket "fresh" "sa-east-1")
              (CreateBucketInput "fresh" "sa-east-1") Sample.options Sample.state)
    as (st' & Hrun & _ & Hlog).
  - reflexivity.
  - reflexivity.
  - exists st'. split; [exact Hrun|exact Hlog].
Defined.

Lemma DeleteObjects_names_every_key_witness :
  exists st',
    DeleteObjects env "photos" ["a.txt"; "a.txt"; "zzz"] Sample.state = Some (None, st').
Proof.
  destruct (DeleteObjects_names_every_key env "photos" ["a.txt"; "a.txt"; "zzz"]
              Sample.options Sample.state)
    as (st' & Hrun & _).
  - reflexivity.
  - exists st'. exact Hrun.
Defined.

Lemma UploadFile_exits_witness :
  (exists st',
     UploadFile env "inbox" "notes" "nope.txt" Demo.unbound
     = Some (Some (err_Other "open nope.txt: no such file or directory"), st') /\
     world st' = Demo.store) /\
  (exists st', UploadFile env "inbox" "notes" "notes.txt" Demo.state = Some (None, st')).
Proof.
  split.
  - destruct (proj1 (UploadFile_exits env "inbox" "notes" "nope.txt" Demo.unbound)
                (err_Other "open nope.txt: no such file or directory"))
      as (st' & Hrun & Hw & _).
    + reflexivity.
    + exists st'. split; [exact Hrun|exact Hw].
  - destruct (proj2 (UploadFile_exits env "inbox" "notes" "notes.txt" Demo.state)
                Demo.notes Sample.options)
      as (st' & Hrun & _).
    + reflexivity.
    + reflexivity.
    + exists st'. exact Hrun.
Defined.

Lemma DownloadFile_early_exits_witness :
  (exists st' e,
     DownloadFile env "photos" "missing" "notes.txt" Demo.state = Some (Some e, st') /\
     files (world st') = files Demo.store) /\
  (exists st',
     DownloadFile Demo.readonly "photos" "report" "out.bin" Demo.state
     = Some (Some (err_Other "open out.bin: permission denied"), st')).
Proof.
  split.
  - destruct (proj1 (DownloadFile_early_exits env "photos" "missing" "notes.txt"
                       Sample.options Demo.state eq_refl)
                (api_error "GetObject" (types_NoSuchKey "missing")))
      as (st' & Hrun & Hw).
    + reflexivity.
    + exists st', (api_error "GetObject" (types_NoSuchKey "missing")).
      split; [exact Hrun|]. rewrite Hw. reflexivity.
  - destruct (proj2 (DownloadFile_early_exits Demo.readonly "photos" "report" "out.bin"
                       Sample.options Demo.state eq_refl)
                {| Body := {| stream_data := Sample.report; stream_err := None |};
                   ObjectLength := 6 |}
                (err_Other "open out.bin: permission denied"))
      as (st' & Hrun & _).
    + reflexivity.
    + reflexivity.
    + exists st'. exact Hrun.
Defined.

Lemma DownloadFile_returns_what_Write_returns_witness :
  exists st',
    DownloadFile env "photos" "report" "out.bin" Sample.state = Some (None, st') /\
    files (world st') !! "out.bin" = Some Sample.report.
Proof.
  destruct (DownloadFile_returns_what_Write_returns env "photos" "report" "out.bin"
              Sample.options Sample.state
              {| Body := {| stream_data := Sample.report; stream_err := None |};
                 ObjectLength := 6 |} "out.bin")
    as (st' & Hrun & Hw & _).
  - reflexivity.
  - reflexivity.
  - reflexivity.
  - exists st'. split; [exact Hrun|]. rewrite Hw. vm_compute. reflexivity.
Defined.

Lemma BucketExists_log_lines_witness :
  exists r st',
    BucketExists env "photos"
      (Sample.failing [FailRequest (err_Other "dial tcp: timeout")]) = Some (r, st') /\
    logged st' = [] /\ r = (true, Some (err_Other "dial tcp: timeout")).
Proof.
  destruct (BucketExists_log_lines env "photos" Sample.options
              (Sample.failing [FailRequest (err_Other "dial tcp: timeout")]))
    as (r & st' & Hrun & _ & Hlog).
  - reflexivity.
  - exists r, st'. split; [exact Hrun|exact Hlog].
Defined.

(** The program on a configured machine prints the first page of the
    bucket; on a machine without any configuration it asks for the bucket
    with the empty name and exits. *)
Example main_configured :
  exists p',
    main Machine.env Machine.host (Machine.start Demo.configured) = Some (Return, p') /\
    Variables p' = {| AwsS3Bucket := "photos"; AwsAccessKeyId := "AKIDEXAMPLE";
                      AwsSecretAccessKey := "secret" |} /\
    stdout p' = ["{    Key: a.txt} <nil>"; "{    Key: b.txt} <nil>"] /\
    logged (facade p') = ["environmental variables loaded from .env file"].
Proof.
  with_end_state (main Machine.env Machine.host (Machine.start Demo.configured))
    ltac:(fun s => exists s).
  repeat split; vm_compute; reflexivity.
Qed.

Example main_unconfigured :
  exists p',
    main Machine.env Machine.host (Machine.start Demo.bare) = Some (os_Exit 1, p') /\
    Variables p' = {| AwsS3Bucket := ""; AwsAccessKeyId := ""; AwsSecretAccessKey := "" |} /\
    stdout p' = [] /\
    length (logged (facade p')) = 2%nat.
Proof.
  with_end_state (main Machine.env Machine.host (Machine.start Demo.bare))
    ltac:(fun s => exists s).
  repeat split; vm_compute; reflexivity.
Qed.

Lemma UploadFile_then_DownloadFile_witness :
  exists st1 st2,
    UploadFile env "inbox" "notes" "notes.txt" Demo.state = Some (None, st1) /\
    DownloadFile env "inbox" "notes" "copy.txt" st1 = Some (None, st2) /\
    files (world st2) !! "copy.txt" = Some Demo.notes.
Proof.
  apply (MemS3Runs.UploadFile_then_DownloadFile "inbox" "notes" "notes.txt" "copy.txt"
           Sample.options Demo.state Sample.inbox Demo.notes).
  - reflexivity.
  - reflexivity.
  - reflexivity.
  - reflexivity.
  - reflexivity.
Defined.


Lemma DeleteObjects_then_DeleteBucket_witness :
  exists st1 st2,
    DeleteObjects env "photos" ["a.txt"; "b.txt"; "report"; "zzz"] Sample.state
    = Some (None, st1) /\
    DeleteBucket env "photos" st1 = Some (None, st2) /\
    buckets (world st2) !! "photos" = None.
Proof.
  destruct (MemS3Runs.DeleteObjects_then_DeleteBucket "photos"
              ["a.txt"; "b.txt"; "report"; "zzz"] Sample.options Sample.state Sample.photos)
    as (st1 & d1 & Hrun & _ & _ & _ & Hall).
  - reflexivity.
  - reflexivity.
  - reflexivity.
  - reflexivity.
  - destruct Hall as (st2 & Hrun2 & Hgone).
    + intros key [data Hk]. unfold Sample.photos in Hk. cbn [bucket_objects] in Hk.
      destruct (decide (key = "a.txt")) as [->|Ha]; [by left|].
      destruct (decide (key = "b.txt")) as [->|Hb]; [by right; left|].
      destruct (decide (key = "report")) as [->|Hr]; [by right; right; left|].
      rewrite !lookup_insert_ne, lookup_singleton_ne in Hk by done. discriminate Hk.
    + exists st1, st2. split; [exact Hrun|]. split; [exact Hrun2|exact Hgone].
Defined.

Lemma CopyToFolder_copies_witness :
  exists st' d',
    CopyToFolder env "photos" "report" "archive" Sample.state = Some (None, st') /\
    buckets (world st') !! "photos" = Some d' /\
    bucket_objects d' !! "archive/report" = Some Sample.report /\
    bucket_objects d' !! "report" = Some Sample.report.
Proof.
  pose proof (MemS3Runs.CopyToFolder_copies "photos" "report" "archive"
                Sample.options Sample.state Sample.photos
                eq_refl eq_refl eq_refl eq_refl eq_refl) as H.
  assert (bucket_objects Sample.photos !! "report" = Some Sample.report) as Hk
    by reflexivity.
  rewrite Hk in H. destruct H as (st' & d' & Hrun & Hb & Hcopy & Hkeep & _).
  exists st', d'. split; [exact Hrun|]. split; [exact Hb|]. split; [exact Hcopy|].
  rewrite Hkeep; [exact Hk|discriminate].
Defined.

End Runs.
